(** * LLAMA spinlocks and the striped spinlock table (ll_lock.h)

    A verification development for [include/llama/ll_lock.h], the
    hand-rolled backend (the [#else] branch, without THREAD_SANITIZER_ENABLED).

    - A lock word ([ll_spinlock_t], a [volatile int32_t]) is a [Z].
    - The GCC builtins and the volatile accesses are the atomic steps of the
      model; each step emits an [event].  Threads interleave at the
      granularity of these steps (sequentially consistent interleaving).
    - [ll_spinlock_acquire] and [ll_spinlock_release] are small-step
      machines over control points named after the source lines.
    - The table [ll_spinlock_table_ext<size>] is the array
      [ll_spinlock_tab], a [list Z] read and updated by index. *)

From Stdlib Require Import ZArith Lia.
From stdpp Require Import base list.

Local Open Scope Z_scope.

(** ** Memory events *)

Inductive event : Type :=
| EvTAS (old : Z)     (* __sync_lock_test_and_set(ptr, 1), returned [old] *)
| EvLoad (v : Z)      (* volatile read  *ptr, observed [v] *)
| EvStore (v : Z)     (* volatile write *ptr = v *)
| EvFence             (* __sync_synchronize() *)
| EvPause             (* asm volatile ("pause" ::: "memory") *)
| EvNop.              (* empty body *)

(** ** The spinlock *)

Module Spinlock.

(** [typedef volatile int32_t ll_spinlock_t;] *)
Abbreviation ll_spinlock_t := Z (only parsing).

Definition FREE : ll_spinlock_t := 0.
Definition HELD : ll_spinlock_t := 1.

(** The flag holds one of the two values of the state machine. *)
Definition lock_valued (l : ll_spinlock_t) : Prop := l = FREE \/ l = HELD.

(** [__sync_lock_test_and_set(ptr, v)]: atomically writes [v] and returns
    the previous contents.  Result: (returned value, new contents). *)
Definition sync_lock_test_and_set (l : ll_spinlock_t) (v : Z) : Z * ll_spinlock_t :=
  (l, v).

(** [ll_spinlock_init]:  *ptr_lock = 0; *)
Definition ll_spinlock_init (l : ll_spinlock_t) : ll_spinlock_t := 0.

(** [ll_spinlock_destroy]:  /* nop */ *)
Definition ll_spinlock_destroy (l : ll_spinlock_t) : ll_spinlock_t := l.

(** [ll_spinlock_try_acquire]:
      int ret = __sync_lock_test_and_set(ptr, 1);
      return ret == 0;
    Result: (returned bool, new contents). *)
Definition ll_spinlock_try_acquire (l : ll_spinlock_t) : bool * ll_spinlock_t :=
  let '(ret, l') := sync_lock_test_and_set l 1 in
  (ret =? 0, l').

(** Control points of [ll_spinlock_acquire]:
      while (__sync_lock_test_and_set(ptr, 1)) {        AcqTAS
          while ( *ptr == 1) {                           AcqTest
              asm volatile ("pause" ::: "memory");       AcqPause
          }
      }                                                  AcqRet *)
Inductive acq_pc : Type := AcqTAS | AcqTest | AcqPause | AcqRet.

#[global] Instance acq_pc_eq_dec : EqDecision acq_pc.
Proof. solve_decision. Defined.

Definition acquire_step (p : acq_pc) (l : ll_spinlock_t)
  : option (acq_pc * ll_spinlock_t * event) :=
  match p with
  | AcqTAS =>
      let '(ret, l') := sync_lock_test_and_set l 1 in
      Some (if ret =? 0 then AcqRet else AcqTest, l', EvTAS ret)
  | AcqTest =>
      Some (if l =? 1 then AcqPause else AcqTAS, l, EvLoad l)
  | AcqPause => Some (AcqTest, l, EvPause)
  | AcqRet => None
  end.

(** Control points of [ll_spinlock_release]:
      __sync_synchronize();     RelFence
      *ptr = 0;                 RelStore
                                RelRet *)
Inductive rel_pc : Type := RelFence | RelStore | RelRet.

#[global] Instance rel_pc_eq_dec : EqDecision rel_pc.
Proof. solve_decision. Defined.

Definition release_step (p : rel_pc) (l : ll_spinlock_t)
  : option (rel_pc * ll_spinlock_t * event) :=
  match p with
  | RelFence => Some (RelStore, l, EvFence)
  | RelStore => Some (RelRet, 0, EvStore 0)
  | RelRet => None
  end.

(** A call running alone on the lock word: iterate the step function until
    the return point, collecting the events.  [None]: out of fuel. *)
Fixpoint ll_spinlock_acquire (fuel : nat) (p : acq_pc) (l : ll_spinlock_t)
  : option (list event * ll_spinlock_t) :=
  match fuel with
  | O => None
  | S fuel' =>
      match acquire_step p l with
      | None => Some ([], l)
      | Some (p', l', e) =>
          match ll_spinlock_acquire fuel' p' l' with
          | Some (tr, l'') => Some (e :: tr, l'')
          | None => None
          end
      end
  end.

Fixpoint release_from (fuel : nat) (p : rel_pc) (l : ll_spinlock_t)
  : option (list event * ll_spinlock_t) :=
  match fuel with
  | O => None
  | S fuel' =>
      match release_step p l with
      | None => Some ([], l)
      | Some (p', l', e) =>
          match release_from fuel' p' l' with
          | Some (tr, l'') => Some (e :: tr, l'')
          | None => None
          end
      end
  end.

(** [ll_spinlock_release] has no loop: three units of fuel always suffice
    (two steps and the return). *)
Definition ll_spinlock_release (l : ll_spinlock_t)
  : option (list event * ll_spinlock_t) :=
  release_from 3 RelFence l.

(** *** Runs of [ll_spinlock_acquire] under interference

    Between two steps of the acquiring thread the other threads may change
    the lock word.  [acquire_run env p l tr l']: started at control point
    [p] with the word holding [l], the call returns after emitting [tr],
    and the word holds [l'] right after its last step.  [env l l1] says
    which changes the other threads may make before each step. *)
Inductive acquire_run (env : Z → Z → Prop)
  : acq_pc → ll_spinlock_t → list event → ll_spinlock_t → Prop :=
| run_ret l : acquire_run env AcqRet l [] l
| run_step p l l1 p' l2 e tr l3 :
    env l l1 →
    acquire_step p l1 = Some (p', l2, e) →
    acquire_run env p' l2 tr l3 →
    acquire_run env p l (e :: tr) l3.

(** Interference by threads that keep the flag in [{free, held}]. *)
Definition env_valued (l l1 : Z) : Prop := lock_valued l1.
(** No interference: the thread runs alone. *)
Definition env_none (l l1 : Z) : Prop := l1 = l.

(** The shape of a test-and-test-and-set trace.  The inner loop: reads that
    observe 1, each followed by a pause, closed by a read whose value
    satisfies [Exit]. *)
Inductive spin_trace (Exit : Z → Prop) : list event → Prop :=
| spin_exit v : Exit v → spin_trace Exit [EvLoad v]
| spin_more tr : spin_trace Exit tr → spin_trace Exit (EvLoad 1 :: EvPause :: tr).

(** The outer loop: failed test-and-sets, each followed by an inner loop,
    closed by the test-and-set that returns 0. *)
Inductive ttas_trace (Exit : Z → Prop) : list event → Prop :=
| ttas_win : ttas_trace Exit [EvTAS 0]
| ttas_retry v sp tr :
    v ≠ 0 → spin_trace Exit sp → ttas_trace Exit tr →
    ttas_trace Exit (EvTAS v :: sp ++ tr).

(** The results of repeated [ll_spinlock_try_acquire] calls seen in a trace:
    one boolean per test-and-set, as [ll_spinlock_try_acquire] computes it. *)
Fixpoint try_results (tr : list event) : list bool :=
  match tr with
  | [] => []
  | EvTAS old :: tr' => fst (ll_spinlock_try_acquire old) :: try_results tr'
  | _ :: tr' => try_results tr'
  end.

(** What a run leaves to be done at each control point. *)
Definition run_shape (Exit : Z → Prop) (p : acq_pc) (tr : list event) : Prop :=
  match p with
  | AcqTAS => ttas_trace Exit tr
  | AcqTest => ∃ sp tr', tr = sp ++ tr' ∧ spin_trace Exit sp ∧ ttas_trace Exit tr'
  | AcqPause =>
      ∃ sp tr', tr = EvPause :: sp ++ tr' ∧ spin_trace Exit sp ∧ ttas_trace Exit tr'
  | AcqRet => tr = []
  end.

(** *** The state machine of one lock word

    Every memory effect an operation of the interface can have on the word,
    labelled with the operation performing it. *)
Inductive op : Type := OpInit | OpDestroy | OpTryAcquire | OpAcquire | OpRelease.

Inductive lock_step : op → ll_spinlock_t → event → ll_spinlock_t → Prop :=
| ls_init l : lock_step OpInit l (EvStore 0) (ll_spinlock_init l)
| ls_destroy l : lock_step OpDestroy l EvNop (ll_spinlock_destroy l)
| ls_try l : lock_step OpTryAcquire l (EvTAS l) (snd (ll_spinlock_try_acquire l))
| ls_acquire p l p' l' e :
    acquire_step p l = Some (p', l', e) → lock_step OpAcquire l e l'
| ls_release p l p' l' e :
    release_step p l = Some (p', l', e) → lock_step OpRelease l e l'.

(** States reachable after [ll_spinlock_init] by any sequence of steps of
    any operations (performed by any threads). *)
Inductive lock_reach : ll_spinlock_t → Prop :=
| reach_init raw : lock_reach (ll_spinlock_init raw)
| reach_step o l e l' : lock_reach l → lock_step o l e l' → lock_reach l'.

End Spinlock.

(** ** The spinlock table *)

Module Table.
Import Spinlock.

(** [#define LL_CACHELINE 8] *)
Definition LL_CACHELINE : Z := 8.

Definition INT_MAX : Z := 2 ^ 31 - 1.

(** Conversion to [uint32_t]. *)
Definition uint32 (z : Z) : Z := z mod 2 ^ 32.

(** [uint32_t entry_idx = (uint32_t)(x & (size - 1));]

    [x] is the value of the key, of any integer type [T]; [size - 1] is an
    [int].  For [size >= 1] the mask is non-negative, it has the same value
    in the common type of [T] and [int], and the two's complement [&] of
    the machine is [Z.land] on the values. *)
Definition entry_idx (size x : Z) : Z := uint32 (Z.land x (size - 1)).

(** [uint32_t tab_idx = entry_idx * LL_CACHELINE;] (unsigned arithmetic) *)
Definition tab_idx (size x : Z) : Z := uint32 (entry_idx size x * LL_CACHELINE).

(** The member declaration [ll_spinlock_t ll_spinlock_tab[size * LL_CACHELINE];]
    is the only constraint the template puts on [size]: the bound is an
    [int] constant expression, so it must not overflow, and the bound of
    an array must be greater than zero (ISO C++; a compiler that lets a
    zero bound pass as an extension makes an empty array, on which every
    access is out of bounds).  Nothing else is checked at instantiation;
    "Must be a power of 2" is a comment. *)
Definition array_bound_ok (size : Z) : bool :=
  (0 <? size * LL_CACHELINE) && (size * LL_CACHELINE <=? INT_MAX).

(** The uninitialised storage of the object: [n] words of whatever the
    memory held, [raw i] at position [i]. *)
Definition raw_storage (raw : nat → Z) (n : nat) : list ll_spinlock_t :=
  map raw (seq 0 n).

(** The constructor loop
      for (int i = 0; i < size * LL_CACHELINE; i++)
          ll_spinlock_init(ll_spinlock_tab + i);
    [fuel] bounds the number of iterations. *)
Fixpoint ctor_loop (fuel : nat) (i bound : Z) (tab : list ll_spinlock_t)
  : list ll_spinlock_t :=
  match fuel with
  | O => tab
  | S fuel' =>
      if i <? bound
      then ctor_loop fuel' (i + 1) bound (alter ll_spinlock_init (Z.to_nat i) tab)
      else tab
  end.

(** Instantiating [ll_spinlock_table_ext<size>] and running its constructor.
    [None]: the instantiation does not compile. *)
Definition ll_spinlock_table_ext (size : Z) (raw : nat → Z)
  : option (list ll_spinlock_t) :=
  if array_bound_ok size
  then
    let bound := size * LL_CACHELINE in
    Some (ctor_loop (Z.to_nat bound) 0 bound (raw_storage raw (Z.to_nat bound)))
  else None.

(** [typedef ll_spinlock_table_ext<1024> ll_spinlock_table;] *)
Definition ll_spinlock_table (raw : nat → Z) : option (list ll_spinlock_t) :=
  ll_spinlock_table_ext 1024 raw.

(** The destructor loop
      for (int i = 0; i < size * LL_CACHELINE; i++)
          ll_spinlock_destroy(ll_spinlock_tab + i); *)
Fixpoint dtor_loop (fuel : nat) (i bound : Z) (tab : list ll_spinlock_t)
  : list ll_spinlock_t :=
  match fuel with
  | O => tab
  | S fuel' =>
      if i <? bound
      then dtor_loop fuel' (i + 1) bound (alter ll_spinlock_destroy (Z.to_nat i) tab)
      else tab
  end.

(** The destructor [~ll_spinlock_table_ext()] of a table of [size] slots. *)
Definition ll_spinlock_table_ext_dtor (size : Z) (tab : list ll_spinlock_t)
  : list ll_spinlock_t :=
  let bound := size * LL_CACHELINE in
  dtor_loop (Z.to_nat bound) 0 bound tab.

(** A power of two, as the comment on the template parameter asks. *)
Definition is_power_of_two (size : Z) : Prop := ∃ k : Z, 0 ≤ k ∧ size = 2 ^ k.

(** One step of an operation on the word [ll_spinlock_tab[a]], that is on
    [*ptr] for [ptr = &ll_spinlock_tab[a]].  Reading or writing outside the
    array has no defined behaviour: [None]. *)
Definition at_word {P : Type} (a : nat)
    (f : ll_spinlock_t → option (P * ll_spinlock_t * event))
    (tab : list ll_spinlock_t) : option (P * list ll_spinlock_t * event) :=
  match tab !! a with
  | None => None
  | Some l =>
      match f l with
      | None => None
      | Some (p', l', e) => Some (p', <[a := l']> tab, e)
      end
  end.

(** A whole call on the word [ll_spinlock_tab[a]] with no other thread
    running. *)
Definition acquire_at (fuel : nat) (a : nat) (tab : list ll_spinlock_t)
  : option (list event * list ll_spinlock_t) :=
  match tab !! a with
  | None => None
  | Some l =>
      match ll_spinlock_acquire fuel AcqTAS l with
      | None => None
      | Some (tr, l') => Some (tr, <[a := l']> tab)
      end
  end.

Definition release_at (a : nat) (tab : list ll_spinlock_t)
  : option (list event * list ll_spinlock_t) :=
  match tab !! a with
  | None => None
  | Some l =>
      match ll_spinlock_release l with
      | None => None
      | Some (tr, l') => Some (tr, <[a := l']> tab)
      end
  end.

(** [acquire_for]:
      uint32_t entry_idx = (uint32_t)(x & (size - 1));
      uint32_t tab_idx = entry_idx * LL_CACHELINE;
      ll_spinlock_acquire(&ll_spinlock_tab[tab_idx]); *)
Definition acquire_for (size : Z) (fuel : nat) (x : Z) (tab : list ll_spinlock_t)
  : option (list event * list ll_spinlock_t) :=
  let entry_idx := uint32 (Z.land x (size - 1)) in
  let tab_idx := uint32 (entry_idx * LL_CACHELINE) in
  acquire_at fuel (Z.to_nat tab_idx) tab.

(** [release_for]:
      uint32_t entry_idx = (uint32_t)(x & (size - 1));
      uint32_t tab_idx = entry_idx * LL_CACHELINE;
      ll_spinlock_release(&ll_spinlock_tab[tab_idx]); *)
Definition release_for (size : Z) (x : Z) (tab : list ll_spinlock_t)
  : option (list event * list ll_spinlock_t) :=
  let entry_idx := uint32 (Z.land x (size - 1)) in
  let tab_idx := uint32 (entry_idx * LL_CACHELINE) in
  release_at (Z.to_nat tab_idx) tab.

(** The same two calls, one step at a time (for interleaved executions). *)
Definition acquire_for_step (size x : Z) (p : acq_pc) (tab : list ll_spinlock_t)
  : option (acq_pc * list ll_spinlock_t * event) :=
  at_word (Z.to_nat (tab_idx size x)) (acquire_step p) tab.

Definition release_for_step (size x : Z) (p : rel_pc) (tab : list ll_spinlock_t)
  : option (rel_pc * list ll_spinlock_t * event) :=
  at_word (Z.to_nat (tab_idx size x)) (release_step p) tab.

(** [tab'] differs from [tab] at most in the word at position [a]. *)
Definition only_word (a : nat) (tab tab' : list ll_spinlock_t) : Prop :=
  length tab' = length tab ∧ ∀ j : nat, j ≠ a → tab' !! j = tab !! j.

(** The padded region of logical slot [i]: the array positions
    [i * LL_CACHELINE .. i * LL_CACHELINE + LL_CACHELINE - 1]. *)
Definition in_region (i : Z) (pos : Z) : Prop :=
  i * LL_CACHELINE ≤ pos < i * LL_CACHELINE + LL_CACHELINE.

End Table.

(** ** Threads contending for locks

    The mutual-exclusion test: every thread runs

      for (i = 0; i < M; i++) {
          ll_spinlock_acquire(lock);     (or acquire_for(key))
          counter++;                     (a plain read, then a plain write)
          ll_spinlock_release(lock);     (or release_for(key))
      }

    on a shared memory of lock words and one shared counter.  A thread is
    identified by its position in the thread list; [lock] is the position
    of its lock word in the memory, for a table the [tab_idx] of its key. *)

Module Client.
Import Spinlock Table.

Inductive wpc : Type :=
| WLoop                 (* loop head: i < M ? *)
| WAcq (p : acq_pc)     (* inside ll_spinlock_acquire *)
| WLoad                 (* counter++ : read the counter *)
| WStore                (* counter++ : write the counter *)
| WRel (p : rel_pc).    (* inside ll_spinlock_release *)

#[global] Instance wpc_eq_dec : EqDecision wpc.
Proof. solve_decision. Defined.

Record worker : Type := Worker {
  w_lock : nat;         (* the lock word this thread uses *)
  w_left : nat;         (* iterations not yet started *)
  w_pc : wpc;
  w_reg : Z             (* the value read by counter++ *)
}.

Record machine : Type := Machine {
  m_mem : list ll_spinlock_t;
  m_ctr : Z;
  m_thr : list worker
}.

(** After the call returns the thread goes on with the next statement. *)
Definition after_acquire (p : acq_pc) : wpc :=
  match p with AcqRet => WLoad | _ => WAcq p end.

Definition after_release (p : rel_pc) : wpc :=
  match p with RelRet => WLoop | _ => WRel p end.

(** Modelled from the spec: the program of the mutual-exclusion test ("N
    threads repeatedly acquire / increment a shared counter / release for M
    iterations"), which the repository does not contain; the calls inside
    it are the step functions of the source.  One step of thread [t] on the
    shared state. *)
Definition worker_step (t : worker) (mem : list ll_spinlock_t) (ctr : Z)
  : option (worker * list ll_spinlock_t * Z) :=
  match w_pc t with
  | WLoop =>
      match w_left t with
      | O => None
      | S n => Some (Worker (w_lock t) n (WAcq AcqTAS) (w_reg t), mem, ctr)
      end
  | WAcq p =>
      match at_word (w_lock t) (acquire_step p) mem with
      | None => None
      | Some (p', mem', _) =>
          Some (Worker (w_lock t) (w_left t) (after_acquire p') (w_reg t), mem', ctr)
      end
  | WLoad => Some (Worker (w_lock t) (w_left t) WStore ctr, mem, ctr)
  | WStore =>
      Some (Worker (w_lock t) (w_left t) (WRel RelFence) (w_reg t), mem, w_reg t + 1)
  | WRel p =>
      match at_word (w_lock t) (release_step p) mem with
      | None => None
      | Some (p', mem', _) =>
          Some (Worker (w_lock t) (w_left t) (after_release p') (w_reg t), mem', ctr)
      end
  end.

(** The scheduler picks thread [tid]. *)
Definition wstep (tid : nat) (m : machine) : option machine :=
  match m_thr m !! tid with
  | None => None
  | Some t =>
      match worker_step t (m_mem m) (m_ctr m) with
      | None => None
      | Some (t', mem', ctr') => Some (Machine mem' ctr' (<[tid := t']> (m_thr m)))
      end
  end.

(** Any interleaving. *)
Inductive exec : machine → machine → Prop :=
| exec_refl m : exec m m
| exec_step m m1 tid m2 : exec m m1 → wstep tid m1 = Some m2 → exec m m2.

(** A given schedule. *)
Fixpoint run_sched (sched : list nat) (m : machine) : option machine :=
  match sched with
  | [] => Some m
  | tid :: sched' =>
      match wstep tid m with
      | None => None
      | Some m' => run_sched sched' m'
      end
  end.

(** [N] threads, thread [i] on the lock word [locks !! i], [M] iterations
    each, counter 0. *)
Definition start (mem : list ll_spinlock_t) (locks : list nat) (M : nat) : machine :=
  Machine mem 0 ((λ a, Worker a M WLoop 0) <$> locks).

(** Threads of a table: thread [i] calls [acquire_for] and [release_for]
    with the key [keys !! i]. *)
Definition slot_word (size x : Z) : nat := Z.to_nat (tab_idx size x).

Definition start_for (size : Z) (tab : list ll_spinlock_t) (keys : list Z) (M : nat)
  : machine :=
  start tab (slot_word size <$> keys) M.

(** The thread is between its successful test-and-set and the store of its
    release: it holds its lock. *)
Definition holding (t : worker) : bool :=
  match w_pc t with
  | WLoad | WStore | WRel _ => true
  | WLoop | WAcq _ => false
  end.

Definition holds (a : nat) (t : worker) : bool :=
  holding t && bool_decide (w_lock t = a).

(** The thread has run all its iterations. *)
Definition finished (t : worker) : Prop := w_pc t = WLoop ∧ w_left t = O.

(** Number of elements satisfying [p]. *)
Fixpoint count {A : Type} (p : A → bool) (l : list A) : nat :=
  match l with
  | [] => O
  | x :: l' => ((if p x then 1 else 0) + count p l')%nat
  end.

(** Increments thread [t] still owes: the iterations not started, and the
    one in progress while its write has not happened. *)
Definition owed (t : worker) : Z :=
  Z.of_nat (w_left t) +
  match w_pc t with
  | WAcq _ | WLoad | WStore => 1
  | WLoop | WRel _ => 0
  end.

Fixpoint sumZ {A : Type} (f : A → Z) (l : list A) : Z :=
  match l with
  | [] => 0
  | x :: l' => f x + sumZ f l'
  end.

(** The invariant behind mutual exclusion: the threads keep their lock
    words, and every lock word in use holds the number of threads holding
    it, which is at most one. *)
Definition lock_inv (locks : list nat) (m : machine) : Prop :=
  w_lock <$> m_thr m = locks ∧
  ∀ a, a ∈ locks →
    m_mem m !! a = Some (Z.of_nat (count (holds a) (m_thr m))) ∧
    (count (holds a) (m_thr m) ≤ 1)%nat.

(** The invariant behind the counter: the counter and the increments still
    owed add up to [total], and a thread about to write the counter has
    read its current value. *)
Definition ctr_inv (total : Z) (m : machine) : Prop :=
  m_ctr m + sumZ owed (m_thr m) = total ∧
  ∀ i t, m_thr m !! i = Some t → w_pc t = WStore → w_reg t = m_ctr m.

(** No two distinct threads hold the same lock word. *)
Definition mutual_exclusion (m : machine) : Prop :=
  ∀ i j ti tj,
    m_thr m !! i = Some ti → m_thr m !! j = Some tj →
    holding ti = true → holding tj = true → w_lock ti = w_lock tj → i = j.

(** The control point is one a step can lead to: a call that has returned
    has been left. *)
Definition proper (t : worker) : Prop :=
  w_pc t ≠ WAcq AcqRet ∧ w_pc t ≠ WRel RelRet.

End Client.

(** * Properties *)

Import Spinlock Table Client.

(** ** The spinlock alone *)

Lemma lock_valued_free : lock_valued FREE.
Proof. by left. Qed.

Lemma lock_valued_held : lock_valued HELD.
Proof. by right. Qed.

Lemma try_acquire_eq l : ll_spinlock_try_acquire l = (l =? 0, HELD).
Proof. reflexivity. Qed.

Lemma release_eq l : ll_spinlock_release l = Some ([EvFence; EvStore 0], FREE).
Proof. reflexivity. Qed.

Lemma try_results_app tr1 tr2 :
  try_results (tr1 ++ tr2) = try_results tr1 ++ try_results tr2.
Proof.
  induction tr1 as [|e tr1 IH]; simpl; [done|].
  destruct e; simpl; by rewrite ?IH.
Qed.

Lemma try_results_spin Exit sp : spin_trace Exit sp → try_results sp = [].
Proof. induction 1; simpl; auto. Qed.

Lemma ttas_try_results Exit tr :
  ttas_trace Exit tr → ∃ k : nat, try_results tr = replicate k false ++ [true].
Proof.
  induction 1 as [|v sp tr Hv Hsp _ [k IH]].
  - by exists O.
  - exists (S k). simpl. rewrite try_results_app, (try_results_spin _ _ Hsp), IH.
    simpl. by destruct (Z.eqb_spec v 0).
Qed.

Lemma acquire_run_shape (env : Z → Z → Prop) (Exit : Z → Prop) p l tr l' :
  (∀ a b, env a b → b ≠ HELD → Exit b) →
  acquire_run env p l tr l' → run_shape Exit p tr.
Proof.
  intros Henv Hrun.
  induction Hrun as [|p l l1 p' l2 e tr l3 He Hstep _ IH]; [done|].
  destruct p; simpl in Hstep; simplify_eq; simpl.
  - destruct (Z.eqb_spec l1 0) as [-> | Hne]; simpl in IH.
    + subst tr. constructor.
    + destruct IH as (sp & tr' & -> & Hsp & Htr). by constructor.
  - destruct (Z.eqb_spec l2 1) as [-> | Hne]; simpl in IH.
    + destruct IH as (sp & tr' & -> & Hsp & Htr).
      exists (EvLoad 1 :: EvPause :: sp), tr'. split; [done|].
      split; [by constructor|done].
    + exists [EvLoad l2], tr. split; [done|].
      split; [|done]. constructor. by apply (Henv l).
  - destruct IH as (sp & tr' & -> & Hsp & Htr). by exists sp, tr'.
Qed.

Lemma acquire_run_held env p l tr l' :
  acquire_run env p l tr l' → p ≠ AcqRet → l' = HELD.
Proof.
  induction 1 as [|p l l1 p' l2 e tr l3 He Hstep Hrun IH]; [done|].
  intros _. destruct (decide (p' = AcqRet)) as [->|Hp']; [|by apply IH].
  inversion Hrun; subst; [|by simpl in *].
  destruct p; simpl in Hstep; simplify_eq; [done|].
  by destruct (l3 =? 1).
Qed.

(** A call that returns when run alone is a run without interference. *)
Lemma acquire_alone_run fuel p l tr l' :
  ll_spinlock_acquire fuel p l = Some (tr, l') → acquire_run env_none p l tr l'.
Proof.
  revert p l tr. induction fuel as [|fuel IH]; intros p l tr Hrun; [done|].
  simpl in Hrun.
  destruct (acquire_step p l) as [[[p1 l1] e]|] eqn:Hstep.
  - destruct (ll_spinlock_acquire fuel p1 l1) as [[tr1 l2]|] eqn:Hrest; [|done].
    simplify_eq. apply (run_step env_none p l l p1 l1); [done|done|by apply IH].
  - simplify_eq. destruct p; simpl in Hstep; try done. constructor.
Qed.

(** The destructor changes nothing: [ll_spinlock_destroy] is empty. *)
Lemma dtor_loop_id fuel i bound (tab : list Z) : dtor_loop fuel i bound tab = tab.
Proof.
  revert i tab. induction fuel as [|fuel IH]; intros i tab; simpl; [done|].
  destruct (i <? bound); [|done]. rewrite IH.
  apply list_eq. intros j. rewrite list_lookup_alter.
  destruct (decide (Z.to_nat i = j)) as [<- | _]; [|done].
  by destruct (tab !! Z.to_nat i).
Qed.

(** On a held lock and with no other thread to release it,
    [ll_spinlock_acquire] never returns: it spins in the inner loop. *)
Lemma acquire_alone_on_held_spins fuel p l :
  p ≠ AcqRet → (p = AcqTAS ∨ l = HELD) → l ≠ FREE →
  ll_spinlock_acquire fuel p l = None.
Proof.
  revert p l. induction fuel as [|fuel IH]; intros p l Hp Hl Hfree; [done|].
  destruct p; simpl; [| | |done].
  - destruct (Z.eqb_spec l 0) as [-> | _]; [done|].
    rewrite IH; [done|done|by right|done].
  - destruct Hl as [Hq | ->]; [done|]. simpl.
    rewrite IH; [done|done|by right|done].
  - destruct Hl as [Hq | ->]; [done|].
    rewrite IH; [done|done|by right|done].
Qed.

(** C2: [ll_spinlock_try_acquire] is one atomic test-and-set.  On every lock
    state it returns at once, leaves the lock held, and returns true exactly
    when the lock was free; called again it returns false and leaves the
    lock held.  After [ll_spinlock_init]: the first call returns true, the
    second false, and after [ll_spinlock_release] a third returns true. *)
Theorem try_acquire_single_claim (l raw : ll_spinlock_t) :
  ll_spinlock_try_acquire l
    = (fst (sync_lock_test_and_set l 1) =? 0, snd (sync_lock_test_and_set l 1)) ∧
  snd (ll_spinlock_try_acquire l) = HELD ∧
  (fst (ll_spinlock_try_acquire l) = true ↔ l = FREE) ∧
  ll_spinlock_try_acquire (snd (ll_spinlock_try_acquire l)) = (false, HELD) ∧
  ll_spinlock_try_acquire (ll_spinlock_init raw) = (true, HELD) ∧
  ll_spinlock_try_acquire HELD = (false, HELD) ∧
  ll_spinlock_release HELD = Some ([EvFence; EvStore 0], FREE) ∧
  ll_spinlock_try_acquire FREE = (true, HELD).
Proof.
  repeat split; try reflexivity.
  - rewrite try_acquire_eq. simpl. by intros ?%Z.eqb_eq.
  - intros ->. reflexivity.
Qed.

(** C3: [ll_spinlock_acquire] is a test-and-test-and-set loop.  Whatever the
    other threads do to the flag between its steps, a call that returns has
    emitted: failed test-and-sets, each followed by plain reads (with a
    pause after each read of 1) up to a read of a value other than 1, and
    last a test-and-set that returned 0.  If the other threads keep the flag
    in {free, held} the read that ends the inner loop observes free.  Only
    the test-and-sets write; each is the step of [ll_spinlock_try_acquire],
    and their results are false, ..., false, true.  On return the flag is
    held.  On a free lock and alone the call returns after one
    test-and-set. *)
Theorem acquire_test_and_test_and_set
    (env : Z → Z → Prop) (l : ll_spinlock_t) (tr : list event) (l' : ll_spinlock_t) :
  acquire_run env AcqTAS l tr l' →
  ttas_trace (λ v, v ≠ HELD) tr ∧
  ((∀ a b, env a b → lock_valued b) → ttas_trace (λ v, v = FREE) tr) ∧
  l' = HELD ∧
  (∃ k : nat, try_results tr = replicate k false ++ [true]) ∧
  (∀ v, acquire_step AcqTAS v
        = Some (if fst (ll_spinlock_try_acquire v) then AcqRet else AcqTest,
                snd (ll_spinlock_try_acquire v), EvTAS v)) ∧
  (∀ p v p' v' e, p ≠ AcqTAS → acquire_step p v = Some (p', v', e) →
        v' = v ∧ (e = EvLoad v ∨ e = EvPause)) ∧
  (∀ fuel, ll_spinlock_acquire (S (S fuel)) AcqTAS FREE = Some ([EvTAS 0], HELD)).
Proof.
  intros Hrun.
  assert (Hshape : ttas_trace (λ v, v ≠ HELD) tr).
  { apply (acquire_run_shape env _ AcqTAS l tr l'); [auto|done]. }
  split; [done|]. split; [|split; [|split; [|split; [|split]]]].
  - intros Henv. apply (acquire_run_shape env _ AcqTAS l tr l'); [|done].
    intros a b Hab Hb. destruct (Henv a b Hab) as [|]; done.
  - by apply (acquire_run_held env AcqTAS l tr).
  - by apply (ttas_try_results _ _ Hshape).
  - intros v. reflexivity.
  - intros p v p' v' e Hp Hstep.
    destruct p; simpl in Hstep; simplify_eq; auto.
  - intros fuel. reflexivity.
Qed.

(** A contended call: the first test-and-set fails, the inner loop reads 1,
    pauses, reads 0 once the holder has released, and the second
    test-and-set succeeds. *)
Lemma acquire_test_and_test_and_set_witness :
  acquire_run env_valued AcqTAS HELD
    [EvTAS 1; EvLoad 1; EvPause; EvLoad 0; EvTAS 0] HELD ∧
  ttas_trace (λ v, v = FREE) [EvTAS 1; EvLoad 1; EvPause; EvLoad 0; EvTAS 0].
Proof.
  assert (Hrun : acquire_run env_valued AcqTAS HELD
                   [EvTAS 1; EvLoad 1; EvPause; EvLoad 0; EvTAS 0] HELD).
  { eapply (run_step env_valued AcqTAS HELD 1); [by right|reflexivity|].
    eapply (run_step env_valued AcqTest HELD 1); [by right|reflexivity|].
    eapply (run_step env_valued AcqPause 1 0); [by left|reflexivity|].
    eapply (run_step env_valued AcqTest 0 0); [by left|reflexivity|].
    eapply (run_step env_valued AcqTAS 0 0); [by left|reflexivity|].
    apply run_ret. }
  split; [exact Hrun|].
  apply (acquire_test_and_test_and_set env_valued HELD _ HELD Hrun).
  intros a b Hab. exact Hab.
Defined.

(** C4: on every lock state [ll_spinlock_release] first issues the full
    barrier and then stores the free value; it takes the lock word only (no
    owner is recorded or compared), and the flag is free afterwards, also
    when other threads changed it between the barrier and the store. *)
Theorem release_resets_to_free (l l1 : ll_spinlock_t) :
  ll_spinlock_release l = Some ([EvFence; EvStore 0], FREE) ∧
  release_step RelFence l = Some (RelStore, l, EvFence) ∧
  release_step RelStore l1 = Some (RelRet, FREE, EvStore 0) ∧
  release_step RelRet FREE = None.
Proof. repeat split. Qed.

(** C5: after [ll_spinlock_init] the flag is only ever free (0) or held (1):
    every step of every operation keeps it so.  A step of an operation
    other than a repeated init changes the flag only from free to held, by
    the successful test-and-set of acquire or try_acquire, or from held to
    free, by the store of release. *)
Theorem lock_state_machine (o : op) (l : ll_spinlock_t) (e : event) (l' : ll_spinlock_t) :
  lock_reach l → lock_step o l e l' →
  lock_valued l ∧ lock_valued l' ∧
  (l' ≠ l → o ≠ OpInit →
     (l = FREE ∧ l' = HELD ∧ (o = OpAcquire ∨ o = OpTryAcquire) ∧ e = EvTAS 0) ∨
     (l = HELD ∧ l' = FREE ∧ o = OpRelease ∧ e = EvStore 0)).
Proof.
  assert (Hpres : ∀ o l e l', lock_valued l → lock_step o l e l' → lock_valued l').
  { clear. intros o l e l' Hl Hstep.
    destruct Hstep as [l|l|l|p l p' l' e Hs|p l p' l' e Hs].
    - by left.
    - done.
    - by right.
    - destruct p; simpl in Hs; simplify_eq; [by right|done|done].
    - destruct p; simpl in Hs; simplify_eq; [done|by left]. }
  intros Hreach Hstep.
  assert (Hl : lock_valued l).
  { clear Hstep. induction Hreach as [raw|o' l0 e' l1 _ IH Hs]; [by left|].
    by apply (Hpres o' l0 e' l1). }
  split; [done|]. split; [by apply (Hpres o l e l')|].
  intros Hne Ho.
  destruct Hstep as [l|l|l|p l p' l' e Hs|p l p' l' e Hs].
  - done.
  - done.
  - simpl in Hne. destruct Hl as [-> | ->]; [|done].
    left. repeat split; auto.
  - destruct p; simpl in Hs; simplify_eq.
    destruct Hl as [-> | ->]; [|done]. left. repeat split; auto.
  - destruct p; simpl in Hs; simplify_eq.
    destruct Hl as [-> | ->]; [done|]. right. repeat split; auto.
Qed.

Lemma lock_state_machine_witness :
  lock_valued (ll_spinlock_init 7) ∧ lock_valued HELD ∧
  (HELD ≠ ll_spinlock_init 7 → OpTryAcquire ≠ OpInit →
     (ll_spinlock_init 7 = FREE ∧ HELD = HELD ∧
      (OpTryAcquire = OpAcquire ∨ OpTryAcquire = OpTryAcquire) ∧
      EvTAS (ll_spinlock_init 7) = EvTAS 0) ∨
     (ll_spinlock_init 7 = HELD ∧ HELD = FREE ∧
      OpTryAcquire = OpRelease ∧ EvTAS (ll_spinlock_init 7) = EvStore 0)).
Proof.
  apply (lock_state_machine OpTryAcquire (ll_spinlock_init 7)
           (EvTAS (ll_spinlock_init 7)) HELD).
  - apply reach_init.
  - apply (ls_try (ll_spinlock_init 7)).
Defined.

(** ** The table: indices and construction *)

Lemma land_mask_bounds x m : 0 ≤ m → 0 ≤ Z.land x m ≤ m.
Proof.
  intros Hm. split; [apply Z.land_nonneg; by right|].
  assert (H : m - Z.land x m = Z.ldiff m (Z.land x m)).
  { apply Z.sub_nocarry_ldiff. apply Z.bits_inj'. intros n Hn.
    rewrite Z.ldiff_spec, Z.land_spec, Z.bits_0.
    by destruct (Z.testbit m n), (Z.testbit x n). }
  assert (0 ≤ Z.ldiff m (Z.land x m)) by (apply Z.ldiff_nonneg; by left).
  lia.
Qed.

Lemma array_bound_ok_spec size :
  array_bound_ok size = true ↔ 1 ≤ size ∧ size * LL_CACHELINE ≤ INT_MAX.
Proof.
  unfold array_bound_ok, LL_CACHELINE.
  rewrite andb_true_iff, Z.ltb_lt, Z.leb_le. lia.
Qed.

Lemma uint32_small z : 0 ≤ z < 2 ^ 32 → uint32 z = z.
Proof. intros Hz. unfold uint32. by apply Z.mod_small. Qed.

Lemma entry_idx_land size x :
  array_bound_ok size = true →
  entry_idx size x = Z.land x (size - 1) ∧ 0 ≤ entry_idx size x < size.
Proof.
  intros [H1 H2]%array_bound_ok_spec. unfold LL_CACHELINE, INT_MAX in H2.
  pose proof (land_mask_bounds x (size - 1)) as Hb.
  unfold entry_idx. rewrite uint32_small; lia.
Qed.

Lemma tab_idx_stride size x :
  array_bound_ok size = true →
  tab_idx size x = entry_idx size x * LL_CACHELINE ∧
  0 ≤ tab_idx size x < size * LL_CACHELINE.
Proof.
  intros Hok. destruct (entry_idx_land size x Hok) as [_ Hb].
  apply array_bound_ok_spec in Hok as [H1 H2].
  unfold LL_CACHELINE, INT_MAX in *.
  unfold tab_idx, LL_CACHELINE. rewrite uint32_small; lia.
Qed.

Lemma raw_storage_lookup raw n j :
  raw_storage raw n !! j = if decide (j < n)%nat then Some (raw j) else None.
Proof.
  unfold raw_storage. rewrite list_lookup_fmap.
  destruct (decide (j < n)%nat) as [Hlt|Hge].
  - by rewrite lookup_seq_lt.
  - rewrite lookup_seq_ge; [done|lia].
Qed.

Lemma ctor_loop_lookup fuel i bound tab j :
  0 ≤ i → (Z.to_nat (bound - i) ≤ fuel)%nat →
  ctor_loop fuel i bound tab !! j =
    if decide (i ≤ Z.of_nat j < bound) then ll_spinlock_init <$> tab !! j else tab !! j.
Proof.
  revert i tab. induction fuel as [|fuel IH]; intros i tab Hi Hfuel; simpl.
  - destruct (decide (i ≤ Z.of_nat j < bound)); [lia|done].
  - destruct (Z.ltb_spec i bound) as [Hlt|Hge].
    + rewrite IH by lia.
      destruct (decide (Z.to_nat i = j)) as [<-|Hne].
      * rewrite list_lookup_alter_eq.
        destruct (decide (i + 1 ≤ Z.of_nat (Z.to_nat i) < bound)); [lia|].
        destruct (decide (i ≤ Z.of_nat (Z.to_nat i) < bound)); [done|lia].
      * rewrite list_lookup_alter_ne by done.
        destruct (decide (i + 1 ≤ Z.of_nat j < bound)),
                 (decide (i ≤ Z.of_nat j < bound)); try done; lia.
    + destruct (decide (i ≤ Z.of_nat j < bound)); [lia|done].
Qed.

(** The constructor leaves every word of the array free, whatever the
    memory held before. *)
Lemma table_ext_replicate size raw tab :
  ll_spinlock_table_ext size raw = Some tab →
  array_bound_ok size = true ∧
  tab = replicate (Z.to_nat (size * LL_CACHELINE)) FREE.
Proof.
  unfold ll_spinlock_table_ext.
  destruct (array_bound_ok size) eqn:Hok; [|done].
  intros [= <-]. split; [done|].
  apply list_eq. intros j.
  rewrite ctor_loop_lookup by lia.
  rewrite raw_storage_lookup.
  destruct (decide (j < Z.to_nat (size * LL_CACHELINE))%nat) as [Hlt|Hge].
  - rewrite lookup_replicate_2 by done.
    destruct (decide (0 ≤ Z.of_nat j < size * LL_CACHELINE)); [done|lia].
  - rewrite (proj1 (lookup_replicate_None _ _ _)) by lia.
    by destruct (decide (0 ≤ Z.of_nat j < size * LL_CACHELINE)).
Qed.

Lemma table_ext_ok size raw :
  array_bound_ok size = true →
  ll_spinlock_table_ext size raw
    = Some (replicate (Z.to_nat (size * LL_CACHELINE)) FREE).
Proof.
  intros Hok.
  destruct (ll_spinlock_table_ext size raw) as [tab|] eqn:Htab.
  - by apply table_ext_replicate in Htab as [_ ->].
  - unfold ll_spinlock_table_ext in Htab. by rewrite Hok in Htab.
Qed.

Lemma at_word_only_word {P : Type} a (f : Z → option (P * Z * event)) tab p' tab' e :
  at_word a f tab = Some (p', tab', e) →
  only_word a tab tab' ∧
  ∃ l l', tab !! a = Some l ∧ f l = Some (p', l', e) ∧ tab' = <[a := l']> tab.
Proof.
  unfold at_word. destruct (tab !! a) as [l|] eqn:Hl; [|done].
  destruct (f l) as [[[q l'] e']|] eqn:Hf; [|done].
  intros [= <- <- <-]. split.
  - split; [apply length_insert|].
    intros j Hj. by apply list_lookup_insert_ne.
  - by exists l, l'.
Qed.

Lemma at_word_same_word {P : Type} a (f : Z → option (P * Z * event)) tab1 tab2 :
  tab1 !! a = tab2 !! a →
  match at_word a f tab1, at_word a f tab2 with
  | Some (p1, tab1', e1), Some (p2, tab2', e2) =>
      p1 = p2 ∧ e1 = e2 ∧ tab1' !! a = tab2' !! a
  | None, None => True
  | _, _ => False
  end.
Proof.
  intros Heq. unfold at_word. rewrite <- Heq.
  destruct (tab1 !! a) as [l|] eqn:Hl; [|done].
  destruct (f l) as [[[q l'] e']|]; [|done].
  repeat split.
  rewrite !list_lookup_insert_eq; [done| |].
  - apply lookup_lt_is_Some. rewrite <- Heq. eauto.
  - apply lookup_lt_is_Some. eauto.
Qed.

Lemma not_power_of_two_3 : ¬ is_power_of_two 3.
Proof.
  intros (k & Hk & H3).
  destruct (decide (k = 0)) as [-> | H0]; [done|].
  destruct (decide (k = 1)) as [-> | H1]; [done|].
  assert (2 ^ 2 ≤ 2 ^ k) by (apply Z.pow_le_mono_r; lia).
  change (2 ^ 2) with 4 in *. lia.
Qed.

(** C6: [acquire_for] and [release_for] compute the slot by the same
    function of the key alone, [key & (size - 1)]; the conversions to
    [uint32_t] change nothing.  [acquire_for] is [ll_spinlock_acquire], and
    [release_for] is [ll_spinlock_release], on the one word at that index
    times [LL_CACHELINE], whole calls and single steps alike: on a free
    slot [acquire_for key] sets exactly that word to held and
    [release_for key] sets it back. *)
Theorem index_pure_and_shared
    (size key : Z) (fuel : nat) (tab : list ll_spinlock_t) (p : acq_pc) (q : rel_pc) :
  array_bound_ok size = true →
  let a := Z.to_nat (Z.land key (size - 1) * LL_CACHELINE) in
  entry_idx size key = Z.land key (size - 1) ∧
  tab_idx size key = Z.land key (size - 1) * LL_CACHELINE ∧
  acquire_for size fuel key tab = acquire_at fuel a tab ∧
  release_for size key tab = release_at a tab ∧
  acquire_for_step size key p tab = at_word a (acquire_step p) tab ∧
  release_for_step size key q tab = at_word a (release_step q) tab ∧
  (tab !! a = Some FREE →
     acquire_for size (S (S fuel)) key tab = Some ([EvTAS 0], <[a := HELD]> tab) ∧
     release_for size key (<[a := HELD]> tab) = Some ([EvFence; EvStore 0], tab)).
Proof.
  intros Hok a.
  destruct (entry_idx_land size key Hok) as [He _].
  destruct (tab_idx_stride size key Hok) as [Ht _]. rewrite He in Ht.
  assert (Hacq : ∀ n t, acquire_for size n key t = acquire_at n a t).
  { intros n t. unfold acquire_for. fold (entry_idx size key).
    fold (tab_idx size key). by rewrite Ht. }
  assert (Hrel : ∀ t, release_for size key t = release_at a t).
  { intros t. unfold release_for. fold (entry_idx size key).
    fold (tab_idx size key). by rewrite Ht. }
  split; [done|]. split; [done|]. split; [apply Hacq|]. split; [apply Hrel|].
  split; [unfold acquire_for_step; by rewrite Ht|].
  split; [unfold release_for_step; by rewrite Ht|].
  intros Hfree. rewrite Hacq, Hrel. unfold acquire_at, release_at.
  assert (Hlt : (a < length tab)%nat) by (apply lookup_lt_is_Some; eauto).
  rewrite Hfree. split; [done|].
  rewrite list_lookup_insert_eq by done. simpl.
  rewrite list_insert_insert_eq. by rewrite list_insert_id.
Qed.

Lemma index_pure_and_shared_witness :
  entry_idx 4 (-3) = 1 ∧
  acquire_for 4 2 (-3) (replicate 32 FREE)
    = Some ([EvTAS 0], <[8%nat := HELD]> (replicate 32 FREE)) ∧
  release_for 4 (-3) (<[8%nat := HELD]> (replicate 32 FREE))
    = Some ([EvFence; EvStore 0], replicate 32 FREE).
Proof.
  pose proof (index_pure_and_shared 4 (-3) 0 (replicate 32 FREE) AcqTAS RelFence
                eq_refl) as (He & _ & _ & _ & _ & _ & Hpair).
  split; [exact He|]. exact (Hpair eq_refl).
Defined.

(** C8 fails on the code: [ll_spinlock_table_ext<3>] is instantiated and
    constructed like any other table, and with the mask [3 - 1] the keys 0
    and 1 share slot 0 while slot 1 is never selected. *)
Lemma power_of_two_unchecked_counterexample :
  ¬ is_power_of_two 3 ∧
  ll_spinlock_table_ext 3 (λ _, 5) = Some (replicate 24 FREE) ∧
  ll_spinlock_table_ext 3 (λ _, 5) ≠ None ∧
  entry_idx 3 0 = 0 ∧ entry_idx 3 1 = 0 ∧
  (∀ x, entry_idx 3 x ≠ 1).
Proof.
  split; [exact not_power_of_two_3|].
  split; [reflexivity|]. split; [done|]. split; [reflexivity|].
  split; [reflexivity|].
  intros x Hx. unfold entry_idx in Hx.
  pose proof (land_mask_bounds x 2 ltac:(lia)) as Hb.
  change (3 - 1) with 2 in Hx.
  rewrite uint32_small in Hx by lia.
  assert (Hbit : Z.testbit (Z.land x 2) 0 = false).
  { rewrite Z.land_spec. change (Z.testbit 2 0) with false. apply andb_false_r. }
  rewrite Hx in Hbit. done.
Qed.

(** C8 (amended): the capacity is checked only through the array
    declaration.  For every [size] from 1 on whose bound
    [size * LL_CACHELINE] fits an [int], a power of two or not, the table is
    instantiated and its constructor sets all [size * LL_CACHELINE] words
    free. *)
Theorem table_capacity_unchecked (size : Z) (raw : nat → Z) :
  1 ≤ size → size * LL_CACHELINE ≤ INT_MAX →
  ll_spinlock_table_ext size raw
    = Some (replicate (Z.to_nat (size * LL_CACHELINE)) FREE).
Proof.
  intros H1 H2. apply table_ext_ok. by apply array_bound_ok_spec.
Qed.

Lemma table_capacity_unchecked_witness :
  ll_spinlock_table_ext 3 (λ i, Z.of_nat i + 7) = Some (replicate 24 FREE).
Proof.
  apply (table_capacity_unchecked 3 (λ i, Z.of_nat i + 7)).
  - lia.
  - unfold LL_CACHELINE, INT_MAX. lia.
Defined.

(** C9: slot [i] owns the array positions [i * LL_CACHELINE] up to
    [i * LL_CACHELINE + LL_CACHELINE - 1]; the regions of distinct slots are
    disjoint and lie inside the array, and the lock word of a key is the
    first position of the region of its slot.  A step (and a whole call) of
    [acquire_for key] or [release_for key] changes no other position than
    that lock word, and its outcome depends on no other position. *)
Theorem frame_and_padding
    (size key : Z) (p : acq_pc) (q : rel_pc) (fuel : nat) (tab : list ll_spinlock_t) :
  array_bound_ok size = true →
  let a := Z.to_nat (entry_idx size key * LL_CACHELINE) in
  tab_idx size key = entry_idx size key * LL_CACHELINE ∧
  in_region (entry_idx size key) (tab_idx size key) ∧
  (∀ i j pos, in_region i pos → in_region j pos → i = j) ∧
  (∀ i pos, 0 ≤ i < size → in_region i pos → 0 ≤ pos < size * LL_CACHELINE) ∧
  (∀ p' tab' e, acquire_for_step size key p tab = Some (p', tab', e) →
     only_word a tab tab') ∧
  (∀ q' tab' e, release_for_step size key q tab = Some (q', tab', e) →
     only_word a tab tab') ∧
  (∀ tr tab', acquire_for size fuel key tab = Some (tr, tab') → only_word a tab tab') ∧
  (∀ tr tab', release_for size key tab = Some (tr, tab') → only_word a tab tab') ∧
  (∀ tab2, tab2 !! a = tab !! a →
     match acquire_for_step size key p tab, acquire_for_step size key p tab2 with
     | Some (p1, tab1', e1), Some (p2, tab2', e2) =>
         p1 = p2 ∧ e1 = e2 ∧ tab1' !! a = tab2' !! a
     | None, None => True
     | _, _ => False
     end) ∧
  (∀ tab2, tab2 !! a = tab !! a →
     match release_for_step size key q tab, release_for_step size key q tab2 with
     | Some (q1, tab1', e1), Some (q2, tab2', e2) =>
         q1 = q2 ∧ e1 = e2 ∧ tab1' !! a = tab2' !! a
     | None, None => True
     | _, _ => False
     end).
Proof.
  intros Hok a.
  destruct (tab_idx_stride size key Hok) as [Ht Hb].
  assert (Ha : Z.to_nat (tab_idx size key) = a) by (unfold a; by rewrite Ht).
  assert (Hins : ∀ (t : list Z) v, only_word a t (<[a := v]> t)).
  { intros t v. split; [apply length_insert|].
    intros j Hj. by apply list_lookup_insert_ne. }
  split; [done|]. split.
  { rewrite Ht. unfold in_region, LL_CACHELINE. lia. }
  split.
  { unfold in_region, LL_CACHELINE. intros i j pos Hi Hj. lia. }
  split.
  { unfold in_region, LL_CACHELINE. intros i pos Hi Hpos. lia. }
  split.
  { intros p' tab' e Hstep. unfold acquire_for_step in Hstep. rewrite Ha in Hstep.
    by apply at_word_only_word in Hstep as [? _]. }
  split.
  { intros q' tab' e Hstep. unfold release_for_step in Hstep. rewrite Ha in Hstep.
    by apply at_word_only_word in Hstep as [? _]. }
  split.
  { intros tr tab'. unfold acquire_for. fold (entry_idx size key).
    fold (tab_idx size key). rewrite Ha. unfold acquire_at.
    destruct (tab !! a) as [l|]; [|done].
    destruct (ll_spinlock_acquire fuel AcqTAS l) as [[tr0 l']|]; [|done].
    intros [= <- <-]. apply Hins. }
  split.
  { intros tr tab'. unfold release_for. fold (entry_idx size key).
    fold (tab_idx size key). rewrite Ha. unfold release_at.
    destruct (tab !! a) as [l|]; [|done]. rewrite release_eq.
    intros [= <- <-]. apply Hins. }
  split.
  - intros tab2 Heq. unfold acquire_for_step. rewrite Ha.
    by apply at_word_same_word.
  - intros tab2 Heq. unfold release_for_step. rewrite Ha.
    by apply at_word_same_word.
Qed.

Lemma frame_and_padding_witness :
  only_word 8 (replicate 32 FREE) (<[8%nat := HELD]> (replicate 32 FREE)).
Proof.
  pose proof (frame_and_padding 4 (-3) AcqTAS RelFence 2 (replicate 32 FREE)
                eq_refl) as (_ & _ & _ & _ & Hstep & _).
  exact (Hstep AcqRet (<[8%nat := HELD]> (replicate 32 FREE)) (EvTAS 0) eq_refl).
Defined.

(** C10: once the table is constructed, for every key value, negative ones
    included, the entry index lies in [0, size) and the table index inside
    the array of [size * LL_CACHELINE] words, so no step of [acquire_for]
    or [release_for] reads or writes outside the array; and the
    constructor has set every word of the array, padding included, free. *)
Theorem table_bounds_safe
    (size : Z) (raw : nat → Z) (tab : list ll_spinlock_t) (x : Z) :
  ll_spinlock_table_ext size raw = Some tab →
  0 ≤ entry_idx size x < size ∧
  0 ≤ tab_idx size x < size * LL_CACHELINE ∧
  Z.of_nat (length tab) = size * LL_CACHELINE ∧
  (Z.to_nat (tab_idx size x) < length tab)%nat ∧
  Forall (λ l, l = FREE) tab ∧
  (∀ j : nat, (j < length tab)%nat → tab !! j = Some FREE) ∧
  tab !! Z.to_nat (tab_idx size x) = Some FREE ∧
  (∀ tab' p, length tab' = length tab → p ≠ AcqRet →
     is_Some (acquire_for_step size x p tab')) ∧
  (∀ tab' q, length tab' = length tab → q ≠ RelRet →
     is_Some (release_for_step size x q tab')).
Proof.
  intros [Hok ->]%table_ext_replicate.
  destruct (entry_idx_land size x Hok) as [_ He].
  destruct (tab_idx_stride size x Hok) as [_ Ht].
  rewrite length_replicate.
  assert (Hlt : (Z.to_nat (tab_idx size x) < Z.to_nat (size * LL_CACHELINE))%nat)
    by lia.
  split; [done|]. split; [done|]. split; [lia|]. split; [done|].
  split; [by apply Forall_replicate|].
  split; [intros j Hj; by apply lookup_replicate_2|].
  split; [by apply lookup_replicate_2|].
  split.
  - intros tab' p Hlen Hp. unfold acquire_for_step, at_word.
    destruct (lookup_lt_is_Some_2 tab' (Z.to_nat (tab_idx size x))) as [l ->]; [lia|].
    destruct p; simpl; eauto. done.
  - intros tab' q Hlen Hq. unfold release_for_step, at_word.
    destruct (lookup_lt_is_Some_2 tab' (Z.to_nat (tab_idx size x))) as [l ->]; [lia|].
    destruct q; simpl; eauto. done.
Qed.

Lemma table_bounds_safe_witness :
  ll_spinlock_table_ext 4 (λ i, Z.of_nat i - 9) = Some (replicate 32 FREE) ∧
  0 ≤ entry_idx 4 (-3) < 4 ∧
  0 ≤ tab_idx 4 (-3) < 4 * LL_CACHELINE.
Proof.
  split; [reflexivity|].
  pose proof (table_bounds_safe 4 (λ i, Z.of_nat i - 9) (replicate 32 FREE) (-3)
                eq_refl) as (He & Ht & _).
  split; [exact He|exact Ht].
Defined.

(** ** Threads contending for locks *)

Lemma count_insert {A : Type} (p : A → bool) (l : list A) i x y :
  l !! i = Some x →
  (count p (<[i := y]> l) + (if p x then 1 else 0)
   = count p l + (if p y then 1 else 0))%nat.
Proof.
  revert i. induction l as [|z l IH]; intros i Hi; [done|].
  destruct i as [|i]; simpl in *.
  - simplify_eq. lia.
  - specialize (IH i Hi). lia.
Qed.

Lemma count_pos {A : Type} (p : A → bool) (l : list A) i x :
  l !! i = Some x → p x = true → (1 ≤ count p l)%nat.
Proof.
  revert i. induction l as [|z l IH]; intros i Hi Hp; [done|].
  destruct i as [|i]; simpl in *.
  - simplify_eq. rewrite Hp. lia.
  - specialize (IH i Hi Hp). lia.
Qed.

Lemma count_two {A : Type} (p : A → bool) (l : list A) i j x y :
  i ≠ j → l !! i = Some x → l !! j = Some y → p x = true → p y = true →
  (2 ≤ count p l)%nat.
Proof.
  revert i j. induction l as [|z l IH]; intros i j Hij Hi Hj Hx Hy; [done|].
  destruct i as [|i], j as [|j]; simpl in *; [done| | |].
  - simplify_eq. rewrite Hx. pose proof (count_pos p l j y Hj Hy). lia.
  - simplify_eq. rewrite Hy. pose proof (count_pos p l i x Hi Hx). lia.
  - assert (i ≠ j) by congruence.
    specialize (IH i j ltac:(done) Hi Hj Hx Hy). lia.
Qed.

Lemma sumZ_insert {A : Type} (f : A → Z) (l : list A) i x y :
  l !! i = Some x → sumZ f (<[i := y]> l) = sumZ f l - f x + f y.
Proof.
  revert i. induction l as [|z l IH]; intros i Hi; [done|].
  destruct i as [|i]; simpl in *.
  - simplify_eq. lia.
  - rewrite (IH i Hi). lia.
Qed.

Lemma worker_step_lock t mem ctr t' mem' ctr' :
  worker_step t mem ctr = Some (t', mem', ctr') → w_lock t' = w_lock t.
Proof.
  unfold worker_step. intros Hstep.
  destruct (w_pc t); [destruct (w_left t)| | | |]; simplify_eq; try done.
  - destruct (at_word _ _ _) as [[[? ?] ?]|]; by simplify_eq.
  - destruct (at_word _ _ _) as [[[? ?] ?]|]; by simplify_eq.
Qed.

Lemma wstep_locks tid m m' :
  wstep tid m = Some m' → w_lock <$> m_thr m' = w_lock <$> m_thr m.
Proof.
  unfold wstep. destruct (m_thr m !! tid) as [t|] eqn:Ht; [|done].
  destruct (worker_step t (m_mem m) (m_ctr m)) as [[[t' mem'] ctr']|] eqn:Hs; [|done].
  intros [= <-]. simpl. rewrite list_fmap_insert.
  apply list_insert_id. rewrite list_lookup_fmap, Ht. simpl.
  by rewrite (worker_step_lock _ _ _ _ _ _ Hs).
Qed.

Lemma holds_other a t : w_lock t ≠ a → holds a t = false.
Proof.
  intros Hne. unfold holds. rewrite bool_decide_eq_false_2 by done.
  apply andb_false_r.
Qed.

Lemma holds_own t : holds (w_lock t) t = holding t.
Proof.
  unfold holds. rewrite bool_decide_eq_true_2 by done. apply andb_true_r.
Qed.

Lemma worker_step_mem t mem ctr t' mem' ctr' :
  worker_step t mem ctr = Some (t', mem', ctr') →
  only_word (w_lock t) mem mem'.
Proof.
  unfold worker_step. intros Hstep.
  destruct (w_pc t); [destruct (w_left t)| | | |]; simplify_eq; try done.
  - destruct (at_word _ _ _) as [[[p' m1] e]|] eqn:Hw; simplify_eq.
    by apply at_word_only_word in Hw as [? _].
  - destruct (at_word _ _ _) as [[[p' m1] e]|] eqn:Hw; simplify_eq.
    by apply at_word_only_word in Hw as [? _].
Qed.

(** What a step does to the thread's own lock word. *)
Lemma worker_step_own t mem ctr t' mem' ctr' l :
  worker_step t mem ctr = Some (t', mem', ctr') →
  mem !! w_lock t = Some l →
  ∃ l', mem' !! w_lock t = Some l' ∧
    ((holding t = false ∧ holding t' = true ∧ l = FREE ∧ l' = HELD) ∨
     (holding t = true ∧ holding t' = false ∧ l' = FREE) ∨
     (holding t' = holding t ∧
      (l' = l ∨ (l ≠ FREE ∧ l' = HELD ∧ holding t = false)))).
Proof.
  intros Hstep Hl.
  assert (Hlt : (w_lock t < length mem)%nat) by (apply lookup_lt_is_Some; eauto).
  unfold worker_step in Hstep. unfold holding.
  destruct t as [a n pc r]; simpl in *.
  destruct pc as [|p| | |q]; simpl in *.
  - destruct n; simplify_eq. simpl. exists l. split; [done|]. right; right; auto.
  - destruct (at_word a (acquire_step p) mem) as [[[p' m1] e]|] eqn:Hw; simplify_eq.
    apply at_word_only_word in Hw as (_ & l0 & l1 & Hl0 & Hf & ->).
    rewrite Hl in Hl0. simplify_eq. exists l1. rewrite list_lookup_insert_eq by done.
    split; [done|]. simpl.
    destruct p; simpl in Hf; simplify_eq.
    + match goal with
      | |- context [?v =? 0] => destruct (Z.eqb_spec v 0) as [-> | Hne]
      end; simpl.
      * left. auto.
      * right; right. split; [done|]. right. auto.
    + right; right. split; [|by left]. by destruct (_ =? 1).
    + right; right. auto.
  - simplify_eq. simpl. exists l. split; [done|]. right; right; auto.
  - simplify_eq. simpl. exists l. split; [done|]. right; right; auto.
  - destruct (at_word a (release_step q) mem) as [[[q' m1] e]|] eqn:Hw; simplify_eq.
    apply at_word_only_word in Hw as (_ & l0 & l1 & Hl0 & Hf & ->).
    rewrite Hl in Hl0. simplify_eq. exists l1. rewrite list_lookup_insert_eq by done.
    split; [done|]. simpl.
    destruct q; simpl in Hf; simplify_eq; simpl.
    + right; right. auto.
    + right; left. auto.
Qed.

Lemma lock_inv_step locks tid m m' :
  lock_inv locks m → wstep tid m = Some m' → lock_inv locks m'.
Proof.
  intros [Hlocks Hinv] Hstep. split.
  { by rewrite (wstep_locks _ _ _ Hstep). }
  intros a Ha. destruct (Hinv a Ha) as [Hmem Hle].
  unfold wstep in Hstep. destruct (m_thr m !! tid) as [t|] eqn:Ht; [|done].
  destruct (worker_step t (m_mem m) (m_ctr m)) as [[[t' mem'] ctr']|] eqn:Hs; [|done].
  simplify_eq. simpl.
  pose proof (count_insert (holds a) (m_thr m) tid t t' Ht) as Hc.
  pose proof (worker_step_lock _ _ _ _ _ _ Hs) as Hlock.
  destruct (decide (w_lock t = a)) as [<- | Hne].
  - assert (Hown : holds (w_lock t) t' = holding t')
      by (rewrite <- Hlock; apply holds_own).
    rewrite Hown, holds_own in Hc.
    destruct (worker_step_own _ _ _ _ _ _ _ Hs Hmem) as (l' & Hl' & Hcase).
    rewrite Hl'. unfold FREE, HELD in Hcase.
    destruct Hcase as [(H1 & H2 & H3 & ->) | [(H1 & H2 & ->) | (H1 & H2)]].
    + rewrite H1, H2 in Hc. split; [f_equal|]; lia.
    + rewrite H1, H2 in Hc. split; [f_equal|]; lia.
    + rewrite H1 in Hc.
      destruct H2 as [-> | (H2 & -> & H3)]; (split; [f_equal|]; lia).
  - rewrite (holds_other a t), (holds_other a t') in Hc by congruence.
    destruct (worker_step_mem _ _ _ _ _ _ Hs) as [_ Hframe].
    rewrite Hframe by done. rewrite Hmem. split; [do 2 f_equal|]; lia.
Qed.

Lemma start_locks (locks : list nat) M :
  w_lock <$> ((λ a, Worker a M WLoop 0) <$> locks) = locks.
Proof. induction locks as [|b locks IH]; [done|]. cbn. f_equal. exact IH. Qed.

Lemma start_count a (locks : list nat) M :
  count (holds a) ((λ b, Worker b M WLoop 0) <$> locks) = O.
Proof. induction locks as [|b locks IH]; [done|]. cbn. exact IH. Qed.

Lemma start_owed (locks : list nat) M :
  sumZ owed ((λ b, Worker b M WLoop 0) <$> locks)
  = Z.of_nat (length locks) * Z.of_nat M.
Proof.
  induction locks as [|b locks IH]; [done|].
  cbn [fmap list_fmap sumZ length]. rewrite IH. unfold owed. cbn [w_left w_pc]. lia.
Qed.

Lemma lock_inv_start mem locks M :
  (∀ a, a ∈ locks → mem !! a = Some FREE) → lock_inv locks (start mem locks M).
Proof.
  intros Hfree. split; [apply start_locks|].
  intros a Ha. cbn [start m_mem m_thr]. rewrite start_count.
  split; [by apply Hfree|lia].
Qed.

Lemma lock_inv_exec locks m m' : lock_inv locks m → exec m m' → lock_inv locks m'.
Proof.
  intros Hinv Hexec. induction Hexec as [|m m1 tid m2 _ IH Hstep]; [done|].
  apply (lock_inv_step locks tid m1); [by apply IH|done].
Qed.

Lemma lock_inv_mutex locks m : lock_inv locks m → mutual_exclusion m.
Proof.
  intros [Hlocks Hinv] i j ti tj Hi Hj Hhi Hhj Hsame.
  destruct (decide (i = j)) as [|Hne]; [done|]. exfalso.
  assert (Ha : w_lock ti ∈ locks).
  { rewrite <- Hlocks. apply list_elem_of_lookup. exists i.
    by rewrite list_lookup_fmap, Hi. }
  destruct (Hinv _ Ha) as [_ Hle].
  assert (2 ≤ count (holds (w_lock ti)) (m_thr m))%nat; [|lia].
  apply (count_two _ _ i j ti tj); try done.
  - by rewrite holds_own.
  - by rewrite Hsame, holds_own.
Qed.

(** What a step does to the counter and to the increments owed. *)
Lemma worker_step_ctr t mem ctr t' mem' ctr' :
  worker_step t mem ctr = Some (t', mem', ctr') →
  (w_pc t = WStore ∧ ctr' = w_reg t + 1 ∧ owed t' = owed t - 1 ∧ w_pc t' ≠ WStore) ∨
  (w_pc t ≠ WStore ∧ ctr' = ctr ∧ owed t' = owed t ∧
   (w_pc t' = WStore → w_reg t' = ctr)).
Proof.
  unfold worker_step, owed. intros Hstep.
  destruct t as [a n pc r]; simpl in *.
  destruct pc as [|p| | |q]; simpl in *.
  - destruct n; simplify_eq. simpl.
    right. split; [done|]. split; [done|]. split; [lia|done].
  - destruct (at_word a (acquire_step p) mem) as [[[p' m1] e]|] eqn:Hw; simplify_eq.
    simpl. right. split; [done|]. split; [done|].
    destruct p'; simpl; done.
  - simplify_eq. simpl. right. done.
  - simplify_eq. simpl. left. split; [done|]. split; [done|]. split; [lia|done].
  - destruct (at_word a (release_step q) mem) as [[[q' m1] e]|] eqn:Hw; simplify_eq.
    simpl. right. split; [done|]. split; [done|].
    destruct q'; simpl; done.
Qed.

Lemma ctr_inv_step locks total tid m m' :
  (∀ a b, a ∈ locks → b ∈ locks → a = b) →
  lock_inv locks m → ctr_inv total m → wstep tid m = Some m' → ctr_inv total m'.
Proof.
  intros Hsame Hlinv [Hsum Hreg] Hstep.
  pose proof (lock_inv_mutex _ _ Hlinv) as Hmutex.
  destruct Hlinv as [Hlocks _].
  assert (Hin : ∀ i ti, m_thr m !! i = Some ti → w_lock ti ∈ locks).
  { intros i ti Hi. rewrite <- Hlocks. apply list_elem_of_lookup. exists i.
    by rewrite list_lookup_fmap, Hi. }
  clear Hlocks.
  unfold wstep in Hstep. destruct (m_thr m !! tid) as [t|] eqn:Ht; [|done].
  destruct (worker_step t (m_mem m) (m_ctr m)) as [[[t' mem'] ctr']|] eqn:Hs; [|done].
  simplify_eq. unfold ctr_inv. simpl.
  rewrite (sumZ_insert owed _ tid t t' Ht).
  assert (Hlt : (tid < length (m_thr m))%nat) by (apply lookup_lt_is_Some; eauto).
  destruct (worker_step_ctr _ _ _ _ _ _ Hs)
    as [(Hpc & -> & Howed & Hpc') | (Hpc & -> & Howed & Hreg')].
  - rewrite (Hreg tid t Ht Hpc). split; [lia|].
    intros i ti Hi Hti.
    destruct (decide (i = tid)) as [-> | Hne].
    + rewrite list_lookup_insert_eq in Hi by done. by simplify_eq.
    + rewrite list_lookup_insert_ne in Hi by done. exfalso. apply Hne.
      apply (Hmutex i tid ti t Hi Ht).
      * unfold holding. by rewrite Hti.
      * unfold holding. by rewrite Hpc.
      * apply Hsame; eauto.
  - split; [lia|].
    intros i ti Hi Hti.
    destruct (decide (i = tid)) as [-> | Hne].
    + rewrite list_lookup_insert_eq in Hi by done. simplify_eq. by apply Hreg'.
    + rewrite list_lookup_insert_ne in Hi by done. by apply (Hreg i).
Qed.

Lemma ctr_inv_start mem locks M :
  ctr_inv (Z.of_nat (length locks) * Z.of_nat M) (start mem locks M).
Proof.
  split; cbn [start m_ctr m_thr].
  - rewrite start_owed. lia.
  - intros i t Hi Hpc. rewrite list_lookup_fmap in Hi.
    destruct (locks !! i) as [b|]; simpl in Hi; [|done].
    injection Hi as <-. done.
Qed.

Lemma ctr_inv_exec locks total m m' :
  (∀ a b, a ∈ locks → b ∈ locks → a = b) →
  lock_inv locks m → ctr_inv total m → exec m m' → ctr_inv total m'.
Proof.
  intros Hsame Hl Hc Hexec.
  induction Hexec as [|m m1 tid m2 Hexec IH Hstep]; [done|].
  apply (ctr_inv_step locks total tid m1); [done| |by apply IH|done].
  by apply (lock_inv_exec locks m).
Qed.

Lemma finished_sum thr : Forall finished thr → sumZ owed thr = 0.
Proof.
  induction 1 as [|t thr [Hpc Hleft] _ IH]; [done|].
  simpl. rewrite IH. unfold owed. rewrite Hpc, Hleft. done.
Qed.

Lemma run_sched_exec sched m m' : run_sched sched m = Some m' → exec m m'.
Proof.
  assert (H : ∀ m0, exec m0 m → run_sched sched m = Some m' → exec m0 m').
  { revert m. induction sched as [|tid sched IH]; intros m m0 Hexec Hrun; simpl in Hrun.
    - by simplify_eq.
    - destruct (wstep tid m) as [m1|] eqn:Hstep; [|done].
      apply (IH m1); [|done]. by apply (exec_step m0 m tid). }
  apply H. constructor.
Qed.

(** *** A complete run exists: the threads run one after the other *)

Lemma exec_trans m1 m2 m3 : exec m1 m2 → exec m2 m3 → exec m1 m3.
Proof.
  intros H12 H23. induction H23 as [|m2 m m' tid _ IH Hstep]; [done|].
  apply (exec_step m1 m m'); [by apply IH|done].
Qed.

Lemma wstep_at thr i t mem ctr t' mem' ctr' :
  thr !! i = Some t →
  worker_step t mem ctr = Some (t', mem', ctr') →
  wstep i (Machine mem ctr thr) = Some (Machine mem' ctr' (<[i := t']> thr)).
Proof. intros Ht Hs. unfold wstep. simpl. by rewrite Ht, Hs. Qed.

Lemma exec_thread_step m thr i t mem ctr t' mem' ctr' :
  exec m (Machine mem ctr (<[i := t]> thr)) →
  (i < length thr)%nat →
  worker_step t mem ctr = Some (t', mem', ctr') →
  exec m (Machine mem' ctr' (<[i := t']> thr)).
Proof.
  intros Hexec Hi Hs.
  apply (exec_step m _ i _ Hexec).
  rewrite (wstep_at _ i t mem ctr t' mem' ctr'); [|by apply list_lookup_insert_eq|done].
  by rewrite list_insert_insert_eq.
Qed.

(** One uncontended iteration of the loop: six steps. *)
Lemma one_iteration mem ctr thr i a n r :
  thr !! i = Some (Worker a (S n) WLoop r) → mem !! a = Some FREE →
  exec (Machine mem ctr thr) (Machine mem (ctr + 1) (<[i := Worker a n WLoop ctr]> thr)).
Proof.
  intros Ht Hfree.
  assert (Hi : (i < length thr)%nat) by (apply lookup_lt_is_Some; eauto).
  assert (Ha : (a < length mem)%nat) by (apply lookup_lt_is_Some; eauto).
  assert (H0 : exec (Machine mem ctr thr)
                 (Machine mem ctr (<[i := Worker a (S n) WLoop r]> thr))).
  { rewrite list_insert_id by done. constructor. }
  (* loop head *)
  assert (H1 := exec_thread_step _ thr i _ mem ctr
                  (Worker a n (WAcq AcqTAS) r) mem ctr H0 Hi eq_refl).
  (* the test-and-set finds the lock free *)
  assert (H2 := exec_thread_step _ thr i _ mem ctr
                  (Worker a n WLoad r) (<[a := HELD]> mem) ctr H1 Hi).
  unfold worker_step, at_word in H2. cbn [w_pc w_lock w_left w_reg] in H2.
  rewrite Hfree in H2. specialize (H2 eq_refl).
  (* counter++ *)
  assert (H3 := exec_thread_step _ thr i _ _ ctr
                  (Worker a n WStore ctr) _ ctr H2 Hi eq_refl).
  assert (H4 := exec_thread_step _ thr i _ _ ctr
                  (Worker a n (WRel RelFence) ctr) _ (ctr + 1) H3 Hi eq_refl).
  (* release: barrier, then store *)
  assert (H5 := exec_thread_step _ thr i _ _ (ctr + 1)
                  (Worker a n (WRel RelStore) ctr) (<[a := HELD]> mem) (ctr + 1) H4 Hi).
  unfold worker_step, at_word in H5. cbn [w_pc w_lock w_left w_reg] in H5.
  rewrite list_lookup_insert_eq in H5 by done.
  cbn [release_step after_release] in H5.
  rewrite list_insert_insert_eq in H5. specialize (H5 eq_refl).
  assert (H6 := exec_thread_step _ thr i _ _ (ctr + 1)
                  (Worker a n WLoop ctr) mem (ctr + 1) H5 Hi).
  unfold worker_step, at_word in H6. cbn [w_pc w_lock w_left w_reg] in H6.
  rewrite list_lookup_insert_eq in H6 by done.
  cbn [release_step after_release] in H6.
  rewrite list_insert_insert_eq, (list_insert_id mem a 0) in H6 by done.
  exact (H6 eq_refl).
Qed.

(** A thread at the loop head whose lock is free can run all its
    iterations alone; the lock is free again afterwards. *)
Lemma run_thread n : ∀ mem ctr thr i a r,
  thr !! i = Some (Worker a n WLoop r) → mem !! a = Some FREE →
  ∃ r', exec (Machine mem ctr thr)
             (Machine mem (ctr + Z.of_nat n) (<[i := Worker a O WLoop r']> thr)).
Proof.
  induction n as [|n IH]; intros mem ctr thr i a r Ht Hfree.
  - exists r. rewrite list_insert_id by done.
    replace (ctr + Z.of_nat 0) with ctr by lia. constructor.
  - pose proof (one_iteration mem ctr thr i a n r Ht Hfree) as H1.
    assert (Hi : (i < length thr)%nat) by (apply lookup_lt_is_Some; eauto).
    destruct (IH mem (ctr + 1) (<[i := Worker a n WLoop ctr]> thr) i a ctr)
      as [r' H2]; [by apply list_lookup_insert_eq|done|].
    exists r'. rewrite list_insert_insert_eq in H2.
    replace (ctr + Z.of_nat (S n)) with (ctr + 1 + Z.of_nat n) by lia.
    by apply (exec_trans _ _ _ H1).
Qed.

Lemma run_all_threads post : ∀ pre mem ctr,
  Forall finished pre →
  Forall (λ t, w_pc t = WLoop ∧ mem !! w_lock t = Some FREE) post →
  ∃ m', exec (Machine mem ctr (pre ++ post)) m' ∧ Forall finished (m_thr m').
Proof.
  induction post as [|t post IH]; intros pre mem ctr Hpre Hpost.
  - exists (Machine mem ctr (pre ++ [])). split; [constructor|].
    simpl. by rewrite app_nil_r.
  - apply Forall_cons in Hpost as [[Hpc Hfree] Hpost].
    destruct t as [a n pc r]; simpl in *. subst pc.
    destruct (run_thread n mem ctr (pre ++ Worker a n WLoop r :: post)
                (length pre) a r) as [r' H1]; [by apply list_lookup_middle|done|].
    rewrite insert_app_r_alt in H1 by lia.
    replace (length pre - length pre)%nat with O in H1 by lia. simpl in H1.
    destruct (IH (pre ++ [Worker a O WLoop r']) mem (ctr + Z.of_nat n))
      as (m' & H2 & Hfin).
    { apply Forall_app. split; [done|]. by repeat constructor. }
    { done. }
    exists m'. split; [|done].
    apply (exec_trans _ _ _ H1). by rewrite <- app_assoc in H2.
Qed.

Lemma complete_run_exists mem locks M :
  (∀ a, a ∈ locks → mem !! a = Some FREE) →
  ∃ m', exec (start mem locks M) m' ∧ Forall finished (m_thr m').
Proof.
  intros Hfree.
  apply (run_all_threads _ [] mem 0); [constructor|].
  apply Forall_fmap, Forall_forall. intros a Ha. simpl. split; [done|].
  by apply Hfree.
Qed.

(** C1: mutual exclusion.  [N] threads each run [M] times
    acquire / counter++ / release, thread [i] on the lock word [locks !! i]
    of a memory whose lock words were initialised free (a lock of its own,
    or the word [acquire_for] selects in a table).  In every state of every
    interleaving no two threads hold the same lock word, and each lock word
    has at most one holder.  When all threads use the same lock word, every
    run that ends leaves the counter at [N * M]; and runs that end exist. *)
Theorem mutual_exclusion_no_lost_update (mem : list ll_spinlock_t) (locks : list nat) (M : nat) :
  (∀ a, a ∈ locks → mem !! a = Some FREE) →
  (∀ m, exec (start mem locks M) m →
     mutual_exclusion m ∧
     (∀ a, a ∈ locks → (count (holds a) (m_thr m) ≤ 1)%nat) ∧
     ((∀ a b, a ∈ locks → b ∈ locks → a = b) →
      Forall finished (m_thr m) →
      m_ctr m = Z.of_nat (length locks) * Z.of_nat M)) ∧
  (∃ m, exec (start mem locks M) m ∧ Forall finished (m_thr m)).
Proof.
  intros Hfree. split; [|by apply complete_run_exists].
  intros m Hexec.
  pose proof (lock_inv_start mem locks M Hfree) as Hl0.
  pose proof (lock_inv_exec _ _ _ Hl0 Hexec) as Hl.
  split; [by apply (lock_inv_mutex locks)|]. split.
  - intros a Ha. by apply (proj2 Hl a Ha).
  - intros Hsame Hfin.
    destruct (ctr_inv_exec locks _ _ m Hsame Hl0 (ctr_inv_start mem locks M) Hexec)
      as [Hsum _].
    rewrite (finished_sum _ Hfin) in Hsum. lia.
Qed.

(** Two threads, two iterations each, on the keys 1 and 5 of a table of 4
    slots (both keys select slot 1): a schedule in which each thread once
    finds the lock held and spins. *)
Lemma mutual_exclusion_no_lost_update_witness :
  run_sched
    [0;0;1;1;1;1;0;0;0;0;1;1;0;0;1;1;1;1;0;0;0;0;0;0;1;1;1;1;1;1]%nat
    (start_for 4 (replicate 32 FREE) [1; 5] 2)
  = Some (Machine (replicate 32 FREE) 4 [Worker 8 0 WLoop 2; Worker 8 0 WLoop 3]) ∧
  m_ctr (Machine (replicate 32 FREE) 4 [Worker 8 0 WLoop 2; Worker 8 0 WLoop 3])
  = Z.of_nat 2 * Z.of_nat 2.
Proof.
  assert (Hrun : run_sched
    [0;0;1;1;1;1;0;0;0;0;1;1;0;0;1;1;1;1;0;0;0;0;0;0;1;1;1;1;1;1]%nat
    (start (replicate 32 FREE) [8; 8]%nat 2)
    = Some (Machine (replicate 32 FREE) 4 [Worker 8 0 WLoop 2; Worker 8 0 WLoop 3]))
    by reflexivity.
  split; [exact Hrun|].
  assert (Hfree : ∀ a : nat, a ∈ [8; 8]%nat → replicate 32 FREE !! a = Some FREE).
  { intros a Ha. apply list_elem_of_In in Ha.
    destruct Ha as [<- | [<- | []]]; reflexivity. }
  assert (Hsame : ∀ a b : nat, a ∈ [8; 8]%nat → b ∈ [8; 8]%nat → a = b).
  { intros a b Ha Hb. apply list_elem_of_In in Ha, Hb.
    destruct Ha as [<- | [<- | []]], Hb as [<- | [<- | []]]; reflexivity. }
  destruct (mutual_exclusion_no_lost_update (replicate 32 FREE) [8; 8]%nat 2 Hfree)
    as [Hsafe _].
  destruct (Hsafe _ (run_sched_exec _ _ _ Hrun)) as (_ & _ & Hctr).
  apply Hctr; [exact Hsame|].
  repeat constructor.
Defined.

Lemma entry_idx_pow2 k x : 0 ≤ k → entry_idx (2 ^ k) x = uint32 (x mod 2 ^ k).
Proof.
  intros Hk. unfold entry_idx.
  replace (2 ^ k - 1) with (Z.ones k) by (rewrite Z.ones_equiv; lia).
  by rewrite Z.land_ones.
Qed.

Lemma start_for_free size raw tab (keys : list Z) :
  ll_spinlock_table_ext size raw = Some tab →
  ∀ a, a ∈ slot_word size <$> keys → tab !! a = Some FREE.
Proof.
  intros [Hok ->]%table_ext_replicate a (x & -> & _)%list_elem_of_fmap.
  destruct (tab_idx_stride size x Hok) as [_ Hb].
  apply lookup_replicate_2. unfold slot_word. lia.
Qed.

(** C7: for a power-of-two capacity the slot of a key is the key modulo the
    capacity: [key] and [key + size] (also when the sum wraps around in an
    unsigned key type at least as wide as the capacity) select the same
    slot, and so do any two keys congruent modulo the capacity.  Threads
    that call [acquire_for] with congruent keys contend for one lock word:
    in no state of any interleaving do two of them hold it together. *)
Theorem aliasing_congruence (size key : Z) :
  is_power_of_two size →
  entry_idx size (key + size) = entry_idx size key ∧
  tab_idx size (key + size) = tab_idx size key ∧
  (∀ k1 k2, k1 mod size = k2 mod size →
     entry_idx size k1 = entry_idx size k2 ∧
     tab_idx size k1 = tab_idx size k2 ∧
     slot_word size k1 = slot_word size k2) ∧
  (∀ w, 0 ≤ w → size ≤ 2 ^ w →
     entry_idx size ((key + size) mod 2 ^ w) = entry_idx size key) ∧
  (∀ raw tab keys M m i j k1 k2 ti tj,
     ll_spinlock_table_ext size raw = Some tab →
     exec (start_for size tab keys M) m →
     keys !! i = Some k1 → keys !! j = Some k2 →
     k1 mod size = k2 mod size →
     m_thr m !! i = Some ti → m_thr m !! j = Some tj →
     holding ti = true → holding tj = true → i = j).
Proof.
  intros (k & Hk & ->).
  assert (Hcong : ∀ k1 k2, k1 mod 2 ^ k = k2 mod 2 ^ k →
            entry_idx (2 ^ k) k1 = entry_idx (2 ^ k) k2 ∧
            tab_idx (2 ^ k) k1 = tab_idx (2 ^ k) k2 ∧
            slot_word (2 ^ k) k1 = slot_word (2 ^ k) k2).
  { intros k1 k2 H12.
    assert (He : entry_idx (2 ^ k) k1 = entry_idx (2 ^ k) k2)
      by (by rewrite !entry_idx_pow2, H12).
    unfold slot_word, tab_idx. by rewrite He. }
  assert (Hadd : (key + 2 ^ k) mod 2 ^ k = key mod 2 ^ k).
  { rewrite <- (Z_mod_plus_full key 1 (2 ^ k)). f_equal. lia. }
  split; [by apply Hcong|]. split; [by apply Hcong|]. split; [done|]. split.
  - intros w Hw Hle. apply Hcong.
    assert (k ≤ w) by (apply (Z.pow_le_mono_r_iff 2); lia).
    rewrite Z.mod_mod_divide; [done|].
    exists (2 ^ (w - k)). rewrite <- Z.pow_add_r by lia. f_equal. lia.
  - intros raw tab keys M m i j k1 k2 ti tj Htab Hexec Hi Hj H12 Hti Htj Hhi Hhj.
    pose proof (lock_inv_start tab (slot_word (2 ^ k) <$> keys) M
                  (start_for_free _ _ _ _ Htab)) as Hl0.
    pose proof (lock_inv_exec _ _ _ Hl0 Hexec) as Hl.
    apply (lock_inv_mutex _ _ Hl i j ti tj Hti Htj Hhi Hhj).
    destruct Hl as [Hlocks _].
    assert (Hwi : w_lock ti = slot_word (2 ^ k) k1).
    { assert (H : (w_lock <$> m_thr m) !! i = Some (w_lock ti))
        by (by rewrite list_lookup_fmap, Hti).
      rewrite Hlocks, list_lookup_fmap, Hi in H. by injection H. }
    assert (Hwj : w_lock tj = slot_word (2 ^ k) k2).
    { assert (H : (w_lock <$> m_thr m) !! j = Some (w_lock tj))
        by (by rewrite list_lookup_fmap, Htj).
      rewrite Hlocks, list_lookup_fmap, Hj in H. by injection H. }
    rewrite Hwi, Hwj. by apply Hcong.
Qed.

Lemma aliasing_congruence_witness :
  entry_idx 1024 (-3 + 1024) = entry_idx 1024 (-3) ∧
  entry_idx 1024 (-3) = 1021.
Proof.
  assert (Hpow : is_power_of_two 1024) by (exists 10; split; [lia|reflexivity]).
  destruct (aliasing_congruence 1024 (-3) Hpow) as (He & _).
  split; [exact He|reflexivity].
Defined.

(** * Further properties of the code *)

(** ** Teardown *)

(** X1: the destructor of the table changes no word of the array:
    [ll_spinlock_destroy] is empty, so a lock that is held when the table
    is torn down is not released by it. *)
Theorem table_destructor_keeps_words (size : Z) (tab : list ll_spinlock_t) (a : nat) :
  ll_spinlock_table_ext_dtor size tab = tab ∧
  (tab !! a = Some HELD → ll_spinlock_table_ext_dtor size tab !! a = Some HELD).
Proof.
  unfold ll_spinlock_table_ext_dtor. rewrite dtor_loop_id. by split.
Qed.

(** ** Acquiring what cannot be obtained *)

(** X2: with no other thread running, [ll_spinlock_acquire] on a word that
    is not 0 never returns, however long it runs: on a held lock, and on a
    word that was never initialised and holds another value (its first
    test-and-set turns that value into 1). *)
Theorem acquire_alone_never_returns (fuel : nat) (l : ll_spinlock_t) :
  l ≠ FREE → ll_spinlock_acquire fuel AcqTAS l = None.
Proof.
  intros Hl. apply acquire_alone_on_held_spins; [done|by left|done].
Qed.

Lemma acquire_alone_never_returns_witness :
  ll_spinlock_acquire 1000 AcqTAS 7 = None.
Proof. apply (acquire_alone_never_returns 1000 7). done. Defined.

Lemma acquire_at_returns_held fuel a (tab : list Z) tr tab' :
  acquire_at fuel a tab = Some (tr, tab') →
  tab' !! a = Some HELD ∧ only_word a tab tab'.
Proof.
  unfold acquire_at. destruct (tab !! a) as [l|] eqn:Hl; [|done].
  destruct (ll_spinlock_acquire fuel AcqTAS l) as [[tr0 l']|] eqn:Hrun; [|done].
  intros [= <- <-].
  assert (Hlt : (a < length tab)%nat) by (apply lookup_lt_is_Some; eauto).
  apply acquire_alone_run in Hrun.
  rewrite (acquire_run_held _ _ _ _ _ Hrun) by done.
  split; [by apply list_lookup_insert_eq|].
  split; [apply length_insert|]. intros j Hj. by apply list_lookup_insert_ne.
Qed.

Lemma acquire_at_held_spins fuel a (tab : list Z) :
  tab !! a = Some HELD → acquire_at fuel a tab = None.
Proof.
  intros Hl. unfold acquire_at. rewrite Hl.
  by rewrite acquire_alone_on_held_spins; [|done|by left|done].
Qed.

Lemma acquire_at_free fuel a (tab : list Z) :
  tab !! a = Some FREE →
  acquire_at (S (S fuel)) a tab = Some ([EvTAS 0], <[a := HELD]> tab).
Proof. intros Hl. unfold acquire_at. by rewrite Hl. Qed.

(** X3: the table is not re-entrant, and aliasing keys count as the same
    lock: once [acquire_for k1] has returned, a second [acquire_for k2] by
    the same thread with a key of the same slot (the same key, or one that
    aliases to it) never returns as long as nothing else releases the
    slot. *)
Theorem acquire_for_aliased_self_deadlock
    (size k1 k2 : Z) (fuel1 fuel : nat) (tab : list ll_spinlock_t)
    (tr : list event) (tab' : list ll_spinlock_t) :
  entry_idx size k1 = entry_idx size k2 →
  acquire_for size fuel1 k1 tab = Some (tr, tab') →
  acquire_for size fuel k2 tab' = None.
Proof.
  intros He Hacq. unfold acquire_for in *.
  fold (entry_idx size k1) in Hacq. fold (entry_idx size k2). rewrite <- He.
  apply acquire_at_returns_held in Hacq as [Hheld _].
  by apply acquire_at_held_spins.
Qed.

Lemma acquire_for_aliased_self_deadlock_witness :
  acquire_for 4 1000 5 (<[8%nat := HELD]> (replicate 32 FREE)) = None.
Proof.
  apply (acquire_for_aliased_self_deadlock 4 1 5 2 1000 (replicate 32 FREE)
           [EvTAS 0] (<[8%nat := HELD]> (replicate 32 FREE))); reflexivity.
Defined.

Lemma slot_word_ne size k1 k2 :
  array_bound_ok size = true →
  entry_idx size k1 ≠ entry_idx size k2 → slot_word size k1 ≠ slot_word size k2.
Proof.
  intros Hok Hne. unfold slot_word.
  destruct (tab_idx_stride size k1 Hok) as [H1 B1].
  destruct (tab_idx_stride size k2 Hok) as [H2 B2].
  unfold LL_CACHELINE in *. lia.
Qed.

(** X4: keys of different slots use different lock words, so holding one
    slot never blocks another: from a table in which both slots are free,
    [acquire_for k1] followed by [acquire_for k2] both return at their first
    test-and-set, in either order, with the same final table, in which both
    slots are held. *)
Theorem acquire_for_distinct_slots_independent
    (size k1 k2 : Z) (fuel : nat) (tab : list ll_spinlock_t) :
  array_bound_ok size = true →
  entry_idx size k1 ≠ entry_idx size k2 →
  tab !! slot_word size k1 = Some FREE →
  tab !! slot_word size k2 = Some FREE →
  ∃ tab1 tab2 tab12,
    acquire_for size (S (S fuel)) k1 tab = Some ([EvTAS 0], tab1) ∧
    acquire_for size (S (S fuel)) k2 tab1 = Some ([EvTAS 0], tab12) ∧
    acquire_for size (S (S fuel)) k2 tab = Some ([EvTAS 0], tab2) ∧
    acquire_for size (S (S fuel)) k1 tab2 = Some ([EvTAS 0], tab12) ∧
    tab12 !! slot_word size k1 = Some HELD ∧
    tab12 !! slot_word size k2 = Some HELD.
Proof.
  intros Hok Hne H1 H2.
  pose proof (slot_word_ne size k1 k2 Hok Hne) as Hw.
  assert (L1 : (slot_word size k1 < length tab)%nat) by (apply lookup_lt_is_Some; eauto).
  assert (L2 : (slot_word size k2 < length tab)%nat) by (apply lookup_lt_is_Some; eauto).
  exists (<[slot_word size k1 := HELD]> tab), (<[slot_word size k2 := HELD]> tab),
         (<[slot_word size k2 := HELD]> (<[slot_word size k1 := HELD]> tab)).
  assert (Hfold : ∀ n k t, acquire_for size n k t = acquire_at n (slot_word size k) t)
    by done.
  rewrite !Hfold.
  split; [by apply acquire_at_free|].
  split; [apply acquire_at_free; by rewrite list_lookup_insert_ne|].
  split; [by apply acquire_at_free|].
  split.
  - rewrite acquire_at_free by (by rewrite list_lookup_insert_ne).
    by rewrite list_insert_insert_ne.
  - split.
    + rewrite list_lookup_insert_ne by done. apply list_lookup_insert_eq. done.
    + apply list_lookup_insert_eq. by rewrite length_insert.
Qed.

Lemma acquire_for_distinct_slots_independent_witness :
  ∃ tab1 tab2 tab12,
    acquire_for 4 2 1 (replicate 32 FREE) = Some ([EvTAS 0], tab1) ∧
    acquire_for 4 2 2 tab1 = Some ([EvTAS 0], tab12) ∧
    acquire_for 4 2 2 (replicate 32 FREE) = Some ([EvTAS 0], tab2) ∧
    acquire_for 4 2 1 tab2 = Some ([EvTAS 0], tab12) ∧
    tab12 !! slot_word 4 1 = Some HELD ∧
    tab12 !! slot_word 4 2 = Some HELD.
Proof.
  apply (acquire_for_distinct_slots_independent 4 1 2 0 (replicate 32 FREE));
    [reflexivity|discriminate|reflexivity|reflexivity].
Defined.

(** ** Which slots the keys reach *)

(** X5: for a power-of-two capacity the slot of a key is the key modulo the
    capacity, also for negative keys.  So every slot is reached (slot [i] by
    the key [i]), consecutive keys take consecutive slots round-robin, and
    two keys share a slot exactly when they are congruent modulo the
    capacity. *)
Theorem entry_idx_power_of_two (size x : Z) :
  is_power_of_two size → array_bound_ok size = true →
  entry_idx size x = x mod size ∧
  (∀ i, 0 ≤ i < size → entry_idx size i = i) ∧
  entry_idx size (x + 1) = (entry_idx size x + 1) mod size ∧
  (∀ k1 k2, entry_idx size k1 = entry_idx size k2 ↔ k1 mod size = k2 mod size).
Proof.
  intros (k & Hk & ->) Hok.
  apply array_bound_ok_spec in Hok as [H1 H2]. unfold LL_CACHELINE, INT_MAX in H2.
  assert (Hmod : ∀ y, entry_idx (2 ^ k) y = y mod 2 ^ k).
  { intros y. rewrite entry_idx_pow2 by done.
    pose proof (Z.mod_pos_bound y (2 ^ k) ltac:(lia)).
    apply uint32_small. lia. }
  split; [apply Hmod|]. split; [|split].
  - intros i Hi. rewrite Hmod. by apply Z.mod_small.
  - rewrite !Hmod. by rewrite Z.add_mod_idemp_l by lia.
  - intros k1 k2. by rewrite !Hmod.
Qed.

Lemma entry_idx_power_of_two_witness :
  entry_idx 1024 (-1) = (-1) mod 1024 ∧ (-1) mod 1024 = 1023.
Proof.
  assert (Hpow : is_power_of_two 1024) by (exists 10; split; [lia|reflexivity]).
  destruct (entry_idx_power_of_two 1024 (-1) Hpow eq_refl) as [He _].
  split; [exact He|reflexivity].
Defined.




(** ** More on the contending threads *)

Lemma exec_locks m m' : exec m m' → w_lock <$> m_thr m' = w_lock <$> m_thr m.
Proof.
  induction 1 as [|m m1 tid m2 _ IH Hstep]; [done|].
  by rewrite (wstep_locks _ _ _ Hstep).
Qed.

Lemma count_exists {A : Type} (p : A → bool) (l : list A) :
  (1 ≤ count p l)%nat → ∃ i x, l !! i = Some x ∧ p x = true.
Proof.
  induction l as [|z l IH]; simpl; [lia|].
  destruct (p z) eqn:Hz.
  - intros _. by exists O, z.
  - intros Hc. destruct (IH Hc) as (i & x & Hi & Hx). by exists (S i), x.
Qed.

Lemma count_none a thr :
  Forall (λ t, holding t = false) thr → count (holds a) thr = O.
Proof.
  induction 1 as [|t thr Ht _ IH]; [done|].
  simpl. unfold holds at 1. by rewrite Ht, IH.
Qed.

Lemma finished_not_holding t : finished t → holding t = false.
Proof. intros [Hpc _]. unfold holding. by rewrite Hpc. Qed.

(** X7: in every state of every interleaving a lock word in use is either
    0 or 1, and it is 1 exactly while some thread is between its successful
    test-and-set and the store of its release: no lock is left held without
    a holder, and once all threads have finished every lock is free
    again. *)
Theorem lock_word_tracks_holder
    (mem : list ll_spinlock_t) (locks : list nat) (M : nat) (m : machine) (a : nat) :
  (∀ b, b ∈ locks → mem !! b = Some FREE) →
  exec (start mem locks M) m →
  a ∈ locks →
  (m_mem m !! a = Some FREE ∨ m_mem m !! a = Some HELD) ∧
  (m_mem m !! a = Some HELD ↔
     ∃ i t, m_thr m !! i = Some t ∧ holding t = true ∧ w_lock t = a) ∧
  (Forall finished (m_thr m) → m_mem m !! a = Some FREE).
Proof.
  intros Hfree Hexec Ha.
  pose proof (lock_inv_exec _ _ _ (lock_inv_start mem locks M Hfree) Hexec) as [_ Hinv].
  destruct (Hinv a Ha) as [Hmem Hle]. rewrite Hmem.
  assert (Hc : count (holds a) (m_thr m) = O ∨ count (holds a) (m_thr m) = 1%nat)
    by lia.
  split; [|split].
  - destruct Hc as [-> | ->]; [by left|by right].
  - split.
    + intros Hheld.
      destruct (count_exists (holds a) (m_thr m)) as (i & t & Hi & Ht).
      { destruct Hc as [Hc | Hc]; rewrite Hc in *; [done|lia]. }
      unfold holds in Ht. apply andb_true_iff in Ht as [Hh Hl].
      apply bool_decide_eq_true in Hl. by exists i, t.
    + intros (i & t & Hi & Hh & Hl).
      assert (1 ≤ count (holds a) (m_thr m))%nat.
      { apply (count_pos _ _ i t Hi). rewrite <- Hl. by rewrite holds_own. }
      destruct Hc as [Hc | Hc]; rewrite Hc in *; [lia|done].
  - intros Hfin. rewrite count_none; [done|].
    eapply Forall_impl; [exact Hfin|]. apply finished_not_holding.
Qed.

Lemma lock_word_tracks_holder_witness :
  run_sched [0; 0; 1; 1]%nat (start (replicate 32 FREE) [8; 8]%nat 2)
  = Some (Machine (<[8%nat := HELD]> (replicate 32 FREE)) 0
            [Worker 8 1 WLoad 0; Worker 8 1 (WAcq AcqTest) 0]) ∧
  (<[8%nat := HELD]> (replicate 32 FREE) !! 8%nat = Some FREE ∨
   <[8%nat := HELD]> (replicate 32 FREE) !! 8%nat = Some HELD).
Proof.
  assert (Hrun : run_sched [0; 0; 1; 1]%nat (start (replicate 32 FREE) [8; 8]%nat 2)
    = Some (Machine (<[8%nat := HELD]> (replicate 32 FREE)) 0
              [Worker 8 1 WLoad 0; Worker 8 1 (WAcq AcqTest) 0])) by reflexivity.
  split; [exact Hrun|].
  assert (Hfree : ∀ b : nat, b ∈ [8; 8]%nat → replicate 32 FREE !! b = Some FREE).
  { intros b Hb. apply list_elem_of_In in Hb.
    destruct Hb as [<- | [<- | []]]; reflexivity. }
  assert (Hin : 8%nat ∈ [8; 8]%nat) by (apply list_elem_of_In; by left).
  exact (proj1 (lock_word_tracks_holder (replicate 32 FREE) [8; 8]%nat 2 _ 8
                  Hfree (run_sched_exec _ _ _ Hrun) Hin)).
Defined.

Lemma exec_frame mem locks M m :
  exec (start mem locks M) m →
  length (m_mem m) = length mem ∧ ∀ a, a ∉ locks → m_mem m !! a = mem !! a.
Proof.
  intros Hexec.
  remember (start mem locks M) as m0 eqn:Hm0.
  induction Hexec as [|m0 m1 tid m2 Hexec IH Hstep]; [by subst|].
  destruct (IH Hm0) as [Hlen Hsame].
  pose proof (exec_locks _ _ Hexec) as Hlocks.
  rewrite Hm0 in Hlocks. cbn [start m_thr] in Hlocks. rewrite start_locks in Hlocks.
  unfold wstep in Hstep. destruct (m_thr m1 !! tid) as [t|] eqn:Ht; [|done].
  destruct (worker_step t (m_mem m1) (m_ctr m1)) as [[[t' mem'] ctr']|] eqn:Hs; [|done].
  injection Hstep as <-. cbn [m_mem].
  destruct (worker_step_mem _ _ _ _ _ _ Hs) as [Hlen' Hother].
  split; [congruence|].
  intros a Ha. rewrite Hother; [by apply Hsame|].
  intros ->. apply Ha. rewrite <- Hlocks.
  apply list_elem_of_lookup. exists tid. by rewrite list_lookup_fmap, Ht.
Qed.

(** X8: threads that go through [acquire_for] and [release_for] write
    nothing but the lock words of their own keys: in every state of every
    interleaving the array has its length, and the padding words (the
    positions that are not a multiple of [LL_CACHELINE]) and the lock words
    of the slots no thread uses are as the constructor left them. *)
Theorem unused_words_never_written
    (size : Z) (raw : nat → Z) (tab : list ll_spinlock_t) (keys : list Z)
    (M : nat) (m : machine) (a : nat) :
  ll_spinlock_table_ext size raw = Some tab →
  exec (start_for size tab keys M) m →
  length (m_mem m) = length tab ∧
  ((∀ k, k ∈ keys → slot_word size k ≠ a) → m_mem m !! a = tab !! a) ∧
  (Z.of_nat a mod LL_CACHELINE ≠ 0 → m_mem m !! a = tab !! a).
Proof.
  intros Htab Hexec.
  destruct (exec_frame _ _ _ _ Hexec) as [Hlen Hsame].
  apply table_ext_replicate in Htab as [Hok _].
  split; [done|].
  assert (Hkeys : (∀ k, k ∈ keys → slot_word size k ≠ a) → m_mem m !! a = tab !! a).
  { intros Hk. apply Hsame. intros (k & -> & Hin)%list_elem_of_fmap.
    by apply (Hk k). }
  split; [done|].
  intros Hmod. apply Hkeys. intros k _ <-. apply Hmod.
  destruct (tab_idx_stride size k Hok) as [Hstride Hb].
  unfold slot_word. rewrite Z2Nat.id by lia. rewrite Hstride.
  apply Z_mod_mult.
Qed.

Lemma unused_words_never_written_witness :
  length (<[8%nat := HELD]> (replicate 32 FREE)) = length (replicate 32 FREE) ∧
  <[8%nat := HELD]> (replicate 32 FREE) !! 9%nat = replicate 32 FREE !! 9%nat.
Proof.
  assert (Hrun : run_sched [0; 0; 1; 1]%nat (start_for 4 (replicate 32 FREE) [1; 5] 2)
    = Some (Machine (<[8%nat := HELD]> (replicate 32 FREE)) 0
              [Worker 8 1 WLoad 0; Worker 8 1 (WAcq AcqTest) 0])) by reflexivity.
  destruct (unused_words_never_written 4 (λ _, 3) (replicate 32 FREE) [1; 5] 2 _ 9
              eq_refl (run_sched_exec _ _ _ Hrun)) as (Hlen & _ & Hpad).
  split; [exact Hlen|]. apply Hpad. discriminate.
Defined.

(** *** Every state can be completed *)

Lemma proper_step t mem ctr t' mem' ctr' :
  worker_step t mem ctr = Some (t', mem', ctr') → proper t'.
Proof.
  unfold worker_step, proper. intros Hstep.
  destruct (w_pc t); [destruct (w_left t)| | | |]; simplify_eq; simpl; try done.
  - destruct (at_word _ _ _) as [[[p' m1] e]|]; simplify_eq. simpl.
    destruct p'; simpl; done.
  - destruct (at_word _ _ _) as [[[q' m1] e]|]; simplify_eq. simpl.
    destruct q'; simpl; done.
Qed.

Lemma proper_exec m m' :
  Forall proper (m_thr m) → exec m m' → Forall proper (m_thr m').
Proof.
  intros Hp Hexec. induction Hexec as [|m m1 tid m2 _ IH Hstep]; [done|].
  specialize (IH Hp). unfold wstep in Hstep.
  destruct (m_thr m1 !! tid) as [t|]; [|done].
  destruct (worker_step t (m_mem m1) (m_ctr m1)) as [[[t' mem'] ctr']|] eqn:Hs; [|done].
  injection Hstep as <-. cbn [m_thr].
  apply Forall_insert; [done|]. by apply (proper_step _ _ _ _ _ _ Hs).
Qed.

Lemma proper_start mem (locks : list nat) M : Forall proper (m_thr (start mem locks M)).
Proof.
  cbn [start m_thr]. apply Forall_fmap, Forall_forall. intros a _. by split.
Qed.

Section one_thread.
Variables (m0 : machine) (thr : list worker) (i a : nat).
Hypothesis Hi : (i < length thr)%nat.

(** The store of release. *)
Lemma drive_rel_store n r (mem : list Z) ctr l :
  mem !! a = Some l →
  exec m0 (Machine mem ctr (<[i := Worker a n (WRel RelStore) r]> thr)) →
  exec m0 (Machine (<[a := FREE]> mem) ctr (<[i := Worker a n WLoop r]> thr)).
Proof using Hi.
  intros Hl H. apply (exec_thread_step _ _ _ _ _ _ _ _ _ H Hi).
  unfold worker_step, at_word. cbn [w_pc w_lock w_left w_reg]. by rewrite Hl.
Qed.

(** From any point at which the thread holds the lock to the loop head. *)
Lemma drive_holder n pc r (mem : list Z) ctr l :
  mem !! a = Some l →
  holding (Worker a n pc r) = true → proper (Worker a n pc r) →
  exec m0 (Machine mem ctr (<[i := Worker a n pc r]> thr)) →
  ∃ ctr' r',
    exec m0 (Machine (<[a := FREE]> mem) ctr' (<[i := Worker a n WLoop r']> thr)).
Proof using Hi.
  intros Hl Hh [_ Hp] H. cbn [w_pc] in Hp.
  assert (Hfence : ∀ c r0,
    exec m0 (Machine mem c (<[i := Worker a n (WRel RelFence) r0]> thr)) →
    exec m0 (Machine (<[a := FREE]> mem) c (<[i := Worker a n WLoop r0]> thr))).
  { intros c r0 H1. apply (drive_rel_store n r0 mem c l Hl).
    assert (H2 := exec_thread_step _ _ _ _ _ _
                    (Worker a n (WRel RelStore) r0) (<[a := l]> mem) c H1 Hi).
    unfold worker_step, at_word in H2. cbn [w_pc w_lock w_left w_reg] in H2.
    rewrite Hl in H2. specialize (H2 eq_refl).
    by rewrite list_insert_id in H2. }
  assert (Hstore : ∀ c r0,
    exec m0 (Machine mem c (<[i := Worker a n WStore r0]> thr)) →
    exec m0 (Machine (<[a := FREE]> mem) (r0 + 1) (<[i := Worker a n WLoop r0]> thr))).
  { intros c r0 H1. apply Hfence.
    exact (exec_thread_step _ _ _ _ _ _ _ _ _ H1 Hi eq_refl). }
  destruct pc as [|p| | |q]; try done.
  - exists (ctr + 1), ctr. apply (Hstore ctr).
    exact (exec_thread_step _ _ _ _ _ _ _ _ _ H Hi eq_refl).
  - exists (r + 1), r. by apply (Hstore ctr).
  - destruct q; [| |done].
    + exists ctr, r. by apply Hfence.
    + exists ctr, r. by apply (drive_rel_store n r mem ctr l).
Qed.

(** From any point inside [ll_spinlock_acquire], with the lock free, to
    the point at which the thread holds it. *)
Lemma drive_acquire n p r (mem : list Z) ctr :
  mem !! a = Some FREE → p ≠ AcqRet →
  exec m0 (Machine mem ctr (<[i := Worker a n (WAcq p) r]> thr)) →
  exec m0 (Machine (<[a := HELD]> mem) ctr (<[i := Worker a n WLoad r]> thr)).
Proof using Hi.
  intros Hl Hp H.
  assert (Htas :
    exec m0 (Machine mem ctr (<[i := Worker a n (WAcq AcqTAS) r]> thr)) →
    exec m0 (Machine (<[a := HELD]> mem) ctr (<[i := Worker a n WLoad r]> thr))).
  { intros H1. apply (exec_thread_step _ _ _ _ _ _ _ _ _ H1 Hi).
    unfold worker_step, at_word. cbn [w_pc w_lock w_left w_reg]. by rewrite Hl. }
  assert (Htest :
    exec m0 (Machine mem ctr (<[i := Worker a n (WAcq AcqTest) r]> thr)) →
    exec m0 (Machine (<[a := HELD]> mem) ctr (<[i := Worker a n WLoad r]> thr))).
  { intros H1. apply Htas.
    assert (H2 := exec_thread_step _ _ _ _ _ _
                    (Worker a n (WAcq AcqTAS) r) (<[a := FREE]> mem) ctr H1 Hi).
    unfold worker_step, at_word in H2. cbn [w_pc w_lock w_left w_reg] in H2.
    rewrite Hl in H2. specialize (H2 eq_refl).
    by rewrite list_insert_id in H2. }
  destruct p; [by apply Htas|by apply Htest| |done].
  apply Htest.
  assert (H2 := exec_thread_step _ _ _ _ _ _
                  (Worker a n (WAcq AcqTest) r) (<[a := FREE]> mem) ctr H Hi).
  unfold worker_step, at_word in H2. cbn [w_pc w_lock w_left w_reg] in H2.
  rewrite Hl in H2. specialize (H2 eq_refl).
  by rewrite list_insert_id in H2.
Qed.
End one_thread.

(** A thread that holds its lock, or whose lock is free, can run alone to
    the end of its loop; its lock is free afterwards. *)
Lemma finish_thread thr i t (mem : list Z) ctr l :
  thr !! i = Some t → mem !! w_lock t = Some l → proper t →
  holding t = true ∨ l = FREE →
  ∃ ctr' r',
    exec (Machine mem ctr thr)
         (Machine (<[w_lock t := FREE]> mem) ctr'
                  (<[i := Worker (w_lock t) O WLoop r']> thr)).
Proof.
  intros Ht Hl Hp Hcase.
  assert (Hi : (i < length thr)%nat) by (apply lookup_lt_is_Some; eauto).
  assert (Ha : (w_lock t < length mem)%nat) by (apply lookup_lt_is_Some; eauto).
  destruct t as [a n pc r]. cbn [w_lock] in *.
  assert (H0 : exec (Machine mem ctr thr)
                 (Machine mem ctr (<[i := Worker a n pc r]> thr))).
  { rewrite list_insert_id by done. constructor. }
  (* first to the loop head, with the lock free *)
  assert (Hloop : ∃ ctr1 r1,
    exec (Machine mem ctr thr)
         (Machine (<[a := FREE]> mem) ctr1 (<[i := Worker a n WLoop r1]> thr))).
  { destruct (holding (Worker a n pc r)) eqn:Hh.
    - by apply (drive_holder (Machine mem ctr thr) thr i a Hi n pc r mem ctr l).
    - destruct Hcase as [Hq | ->]; [done|].
      destruct pc as [|p| | |q]; try done.
      + exists ctr, r. by rewrite list_insert_id.
      + assert (Hne : p ≠ AcqRet) by (intros ->; by destruct Hp).
        pose proof (drive_acquire (Machine mem ctr thr) thr i a Hi n p r mem ctr
                      Hl Hne H0) as H1.
        destruct (drive_holder (Machine mem ctr thr) thr i a Hi n WLoad r
                    (<[a := HELD]> mem) ctr HELD)
          as (ctr1 & r1 & H2); [by apply list_lookup_insert_eq|done|done|done|].
        rewrite list_insert_insert_eq in H2. by exists ctr1, r1. }
  destruct Hloop as (ctr1 & r1 & H1).
  (* then the remaining iterations *)
  destruct (run_thread n (<[a := FREE]> mem) ctr1
              (<[i := Worker a n WLoop r1]> thr) i a r1) as [r' H2].
  { by apply list_lookup_insert_eq. }
  { by apply list_lookup_insert_eq. }
  rewrite list_insert_insert_eq in H2.
  exists (ctr1 + Z.of_nat n), r'. by apply (exec_trans _ _ _ H1).
Qed.

Lemma finish_holders post : ∀ pre (mem : list Z) ctr,
  Forall (λ t, holding t = false) pre →
  Forall proper post →
  Forall (λ t, is_Some (mem !! w_lock t)) post →
  ∃ m', exec (Machine mem ctr (pre ++ post)) m' ∧
        Forall (λ t, holding t = false) (m_thr m').
Proof.
  induction post as [|t post IH]; intros pre mem ctr Hpre Hprop Hsome.
  - exists (Machine mem ctr (pre ++ [])). split; [constructor|].
    cbn [m_thr]. by rewrite app_nil_r.
  - apply Forall_cons in Hprop as [Hp Hprop].
    apply Forall_cons in Hsome as [[l Hl] Hsome].
    destruct (holding t) eqn:Hh.
    + destruct (finish_thread (pre ++ t :: post) (length pre) t mem ctr l)
        as (ctr' & r' & H1); [by apply list_lookup_middle|done|done|by left|].
      rewrite insert_app_r_alt in H1 by lia.
      replace (length pre - length pre)%nat with O in H1 by lia. simpl in H1.
      destruct (IH (pre ++ [Worker (w_lock t) O WLoop r'])
                  (<[w_lock t := FREE]> mem) ctr') as (m' & H2 & Hnone).
      { apply Forall_app. split; [done|]. by repeat constructor. }
      { done. }
      { eapply Forall_impl; [exact Hsome|]. intros t0 Ht0. simpl in *.
        apply lookup_lt_is_Some. rewrite length_insert.
        by apply lookup_lt_is_Some. }
      exists m'. split; [|done].
      apply (exec_trans _ _ _ H1). by rewrite <- app_assoc in H2.
    + destruct (IH (pre ++ [t]) mem ctr) as (m' & H2 & Hnone); [|done|done|].
      { apply Forall_app. split; [done|]. by repeat constructor. }
      exists m'. split; [|done]. by rewrite <- app_assoc in H2.
Qed.

Lemma finish_all post : ∀ pre (mem : list Z) ctr,
  Forall finished pre →
  Forall (λ t, proper t ∧ mem !! w_lock t = Some FREE) post →
  ∃ m', exec (Machine mem ctr (pre ++ post)) m' ∧ Forall finished (m_thr m').
Proof.
  induction post as [|t post IH]; intros pre mem ctr Hpre Hpost.
  - exists (Machine mem ctr (pre ++ [])). split; [constructor|].
    cbn [m_thr]. by rewrite app_nil_r.
  - apply Forall_cons in Hpost as [[Hp Hl] Hpost].
    destruct (finish_thread (pre ++ t :: post) (length pre) t mem ctr FREE)
      as (ctr' & r' & H1); [by apply list_lookup_middle|done|done|by right|].
    rewrite insert_app_r_alt in H1 by lia.
    replace (length pre - length pre)%nat with O in H1 by lia. simpl in H1.
    rewrite (list_insert_id mem (w_lock t) FREE) in H1 by done.
    destruct (IH (pre ++ [Worker (w_lock t) O WLoop r']) mem ctr')
      as (m' & H2 & Hfin).
    { apply Forall_app. split; [done|]. by repeat constructor. }
    { done. }
    exists m'. split; [|done].
    apply (exec_trans _ _ _ H1). by rewrite <- app_assoc in H2.
Qed.

(** X9: the locks never deadlock the threads.  From every state that any
    interleaving of the acquire / counter++ / release loops reaches, the
    run can be continued until all threads have finished (let each holder
    run to its release, then each thread in turn); when all threads share
    one lock the counter then holds [N * M]. *)
Theorem every_state_completes
    (mem : list ll_spinlock_t) (locks : list nat) (M : nat) (m : machine) :
  (∀ a, a ∈ locks → mem !! a = Some FREE) →
  exec (start mem locks M) m →
  ∃ m', exec m m' ∧ Forall finished (m_thr m') ∧
        ((∀ a b, a ∈ locks → b ∈ locks → a = b) →
         m_ctr m' = Z.of_nat (length locks) * Z.of_nat M).
Proof.
  intros Hfree Hexec.
  pose proof (lock_inv_start mem locks M Hfree) as Hl0.
  assert (Hword : ∀ m1, exec (start mem locks M) m1 →
            Forall proper (m_thr m1) ∧
            ∀ t, t ∈ m_thr m1 →
              m_mem m1 !! w_lock t
              = Some (Z.of_nat (count (holds (w_lock t)) (m_thr m1)))).
  { intros m1 H1. split; [by apply (proper_exec _ _ (proper_start mem locks M))|].
    destruct (lock_inv_exec _ _ _ Hl0 H1) as [Hlocks Hinv].
    intros t Ht. apply Hinv. rewrite <- Hlocks. by apply list_elem_of_fmap_2. }
  (* let the holders finish *)
  destruct (Hword m Hexec) as [Hp Hw].
  destruct m as [mem1 ctr1 thr1]. cbn [m_mem m_thr] in *.
  destruct (finish_holders thr1 [] mem1 ctr1) as (m1 & H1 & Hnone); [done|done| |].
  { apply Forall_forall. intros t Ht. rewrite (Hw t Ht). eauto. }
  simpl in H1.
  (* now every lock is free: let each thread finish *)
  pose proof (exec_trans _ _ _ Hexec H1) as Hexec1.
  destruct (Hword m1 Hexec1) as [Hp1 Hw1].
  destruct m1 as [mem2 ctr2 thr2]. cbn [m_mem m_thr] in *.
  destruct (finish_all thr2 [] mem2 ctr2) as (m' & H2 & Hfin); [done| |].
  { apply Forall_forall. intros t Ht. split.
    - by apply (proj1 (Forall_forall _ _) Hp1).
    - rewrite (Hw1 t Ht). by rewrite count_none. }
  simpl in H2.
  exists m'. split; [by apply (exec_trans _ _ _ H1)|]. split; [done|].
  intros Hsame.
  pose proof (exec_trans _ _ _ Hexec1 H2) as Hexec'.
  destruct (ctr_inv_exec locks _ _ m' Hsame Hl0 (ctr_inv_start mem locks M) Hexec')
    as [Hsum _].
  rewrite (finished_sum _ Hfin) in Hsum. lia.
Qed.

Lemma every_state_completes_witness :
  ∃ m',
    exec (Machine (<[8%nat := HELD]> (replicate 32 FREE)) 0
            [Worker 8 1 WLoad 0; Worker 8 1 (WAcq AcqTest) 0]) m' ∧
    Forall finished (m_thr m') ∧
    m_ctr m' = Z.of_nat 2 * Z.of_nat 2.
Proof.
  assert (Hrun : run_sched [0; 0; 1; 1]%nat (start (replicate 32 FREE) [8; 8]%nat 2)
    = Some (Machine (<[8%nat := HELD]> (replicate 32 FREE)) 0
              [Worker 8 1 WLoad 0; Worker 8 1 (WAcq AcqTest) 0])) by reflexivity.
  assert (Hfree : ∀ b : nat, b ∈ [8; 8]%nat → replicate 32 FREE !! b = Some FREE).
  { intros b Hb. apply list_elem_of_In in Hb.
    destruct Hb as [<- | [<- | []]]; reflexivity. }
  assert (Hsame : ∀ a b : nat, a ∈ [8; 8]%nat → b ∈ [8; 8]%nat → a = b).
  { intros a b Ha Hb. apply list_elem_of_In in Ha, Hb.
    destruct Ha as [<- | [<- | []]], Hb as [<- | [<- | []]]; reflexivity. }
  destruct (every_state_completes (replicate 32 FREE) [8; 8]%nat 2 _
              Hfree (run_sched_exec _ _ _ Hrun)) as (m' & Hexec & Hfin & Hctr).
  exists m'. split; [exact Hexec|]. split; [exact Hfin|]. exact (Hctr Hsame).
Defined.

(** ** The default table *)

(** X10: the default table [ll_spinlock_table] (capacity 1024) satisfies what
    the template asks: its constructor yields 8192 free words whatever the
    memory held, the slot of every key is the key modulo 1024, and its
    lock word is at position 8 * (key mod 1024), inside the array. *)
Theorem default_table_well_formed (raw : nat → Z) (x : Z) :
  ll_spinlock_table raw = Some (replicate (Z.to_nat 8192) FREE) ∧
  is_power_of_two 1024 ∧
  entry_idx 1024 x = x mod 1024 ∧
  tab_idx 1024 x = LL_CACHELINE * (x mod 1024) ∧
  replicate (Z.to_nat 8192) FREE !! Z.to_nat (tab_idx 1024 x) = Some FREE.
Proof.
  assert (Hpow : is_power_of_two 1024) by (exists 10; split; [lia|reflexivity]).
  assert (Hok : array_bound_ok 1024 = true) by reflexivity.
  assert (He : entry_idx 1024 x = x mod 1024).
  { change 1024 with (2 ^ 10). rewrite entry_idx_pow2 by lia.
    pose proof (Z.mod_pos_bound x (2 ^ 10) ltac:(lia)).
    apply uint32_small. lia. }
  destruct (tab_idx_stride 1024 x Hok) as [Ht Hb]. unfold LL_CACHELINE in *.
  split.
  { unfold ll_spinlock_table. by rewrite (table_ext_ok 1024 raw Hok). }
  split; [done|]. split; [done|]. split; [rewrite Ht, He; lia|].
  apply lookup_replicate_2. lia.
Qed.
